(** * node-bangumi: the request dispatcher of the Bangumi API client

    A shallow embedding of [lib/bangumi.js]: the client object, the two
    request executors [_get] and [_post], their public wrappers [get] and
    [post], and the endpoint methods built on them.  JavaScript values are
    modelled as far as the executors look at them; the heap is reduced to the
    one client instance, the requests handed to the transport, the response
    listeners waiting for events, and the completions observed so far. *)

From Stdlib Require Import String Ascii List Bool Arith NArith Lia.
From Stdlib Require Import Floats.SpecFloat.
Import ListNotations.
Local Open Scope string_scope.

(** ** JavaScript objects used as mappings *)

(** An object is the list of its own enumerable properties in the order
    [Object.keys] and [for-in] visit them: array-index keys first, ascending,
    then the other keys in the order they were created. *)
Module JsObject.

Definition obj (V : Type) : Type := list (string * V).

Fixpoint lookup {V : Type} (k : string) (o : obj V) : option V :=
  match o with
  | [] => None
  | (k', v) :: o' => if String.eqb k k' then Some v else lookup k o'
  end.

Definition hasOwnProperty {V : Type} (k : string) (o : obj V) : bool :=
  match lookup k o with Some _ => true | None => false end.

Definition digit (c : ascii) : option N :=
  let n := N_of_ascii c in
  if ((48 <=? n) && (n <=? 57))%N then Some (n - 48)%N else None.

Fixpoint digits (s : string) (acc : N) : option N :=
  match s with
  | EmptyString => Some acc
  | String c s' =>
      match digit c with
      | Some d => digits s' (10 * acc + d)%N
      | None => None
      end
  end.

(** A key is an array index when it is the canonical decimal spelling of an
    integer below 2^32 - 1. *)
Definition array_index (k : string) : option N :=
  match k with
  | EmptyString => None
  | String "0"%char EmptyString => Some 0%N
  | String "0"%char _ => None
  | _ =>
      match digits k 0%N with
      | Some n => if (n <? 4294967295)%N then Some n else None
      | None => None
      end
  end.

Fixpoint replace {V : Type} (k : string) (v : V) (o : obj V) : obj V :=
  match o with
  | [] => []
  | (k', v') :: o' =>
      if String.eqb k k' then (k', v) :: o' else (k', v') :: replace k v o'
  end.

Fixpoint insert_index {V : Type} (n : N) (k : string) (v : V) (o : obj V) : obj V :=
  match o with
  | [] => [(k, v)]
  | (k', v') :: o' =>
      match array_index k' with
      | Some m => if (m <? n)%N then (k', v') :: insert_index n k v o' else (k, v) :: o
      | None => (k, v) :: o
      end
  end.

(** [o[k] = v]: an existing property keeps its place, a new one is created. *)
Definition set {V : Type} (k : string) (v : V) (o : obj V) : obj V :=
  if hasOwnProperty k o then replace k v o
  else match array_index k with
       | Some n => insert_index n k v o
       | None => (o ++ [(k, v)])%list
       end.

End JsObject.
Import JsObject.

(** ** [utils] *)

Module Utils.

(** Modelled from the spec: [utils.merge] ([lib/utils.js] is not among the
    sources).  The configuration merger "combines user-supplied options with
    defaults", the later mapping being "merged over" the first: every
    property of [overrides] is assigned on [defaults], which is returned. *)
Definition merge {V : Type} (defaults overrides : obj V) : obj V :=
  fold_left (fun acc kv => set (fst kv) (snd kv) acc) overrides defaults.

End Utils.

(** ** [querystring.stringify] and [encodeURI]

    Strings are sequences of bytes holding UTF-8 text, so that a character
    outside ASCII is percent-encoded byte by byte, as both functions do. *)

Fixpoint str_mem (c : ascii) (s : string) : bool :=
  match s with
  | EmptyString => false
  | String c' s' => Ascii.eqb c c' || str_mem c s'
  end.

Definition is_alnum (c : ascii) : bool :=
  let n := N_of_ascii c in
  ((48 <=? n) && (n <=? 57) || (65 <=? n) && (n <=? 90) || (97 <=? n) && (n <=? 122))%N.

Definition hex_digit (n : N) : ascii :=
  match n with
  | 0 => "0" | 1 => "1" | 2 => "2" | 3 => "3" | 4 => "4" | 5 => "5" | 6 => "6"
  | 7 => "7" | 8 => "8" | 9 => "9" | 10 => "A" | 11 => "B" | 12 => "C"
  | 13 => "D" | 14 => "E" | _ => "F"
  end%N%char.

Definition percent (c : ascii) : string :=
  let n := N_of_ascii c in
  String "%" (String (hex_digit (n / 16)) (String (hex_digit (n mod 16)) EmptyString)).

Fixpoint escape_with (keep : ascii -> bool) (s : string) : string :=
  match s with
  | EmptyString => EmptyString
  | String c s' =>
      (if keep c then String c EmptyString else percent c) ++ escape_with keep s'
  end.

Module Querystring.

Definition unescaped (c : ascii) : bool := is_alnum c || str_mem c "-_.!~*'()".

Definition escape (s : string) : string := escape_with unescaped s.

(** [querystring.stringify(o)] for a mapping of strings to strings. *)
Definition stringify (o : obj string) : string :=
  String.concat "&" (map (fun kv => escape (fst kv) ++ "=" ++ escape (snd kv)) o).

End Querystring.

Definition uri_unescaped (c : ascii) : bool :=
  is_alnum c || str_mem c ";/?:@&=+$,#-_.!~*'()".

Definition encodeURI (s : string) : string := escape_with uri_unescaped s.

Definition is_empty (s : string) : bool :=
  match s with EmptyString => true | _ => false end.

(** [url.charAt(0) !== '/'] *)
Definition charAt0_is_slash (url : string) : bool :=
  match url with
  | String c _ => Ascii.eqb c "/"
  | EmptyString => false
  end.

(** ** Values *)

(** What [JSON.parse] returns.  Numbers are binary64 values. *)
#[local] Set Warnings "-register-all".
Inductive json : Type :=
| JNull
| JBool (b : bool)
| JNum (x : spec_float)
| JStr (s : string)
| JArr (items : list json)
| JObj (props : list (string * json)).

Inductive js_error : Type :=
| SyntaxError (message : string)
| TypeError (message : string)
| SocketError (message : string).

(** The values that travel as callback arguments and as thrown exceptions. *)
Inductive jsval : Type :=
| JV (j : json)
| JErr (e : js_error).

Definition null : jsval := JV JNull.

(** The object literal [{}]. *)
Definition empty_object : jsval := JV (JObj []).

Definition is_null (v : jsval) : bool :=
  match v with JV JNull => true | _ => false end.

(** A function value.  A caller's callback may do what it likes with its
    arguments; the executors see only whether it returns or throws, which may
    depend on the calls it received before.  [Settle d] is the completion
    function the dual-mode adapter builds around the deferred value [d]. *)
Inductive func : Type :=
| UserFn (id : nat) (behaviour : list (jsval * jsval) -> jsval -> jsval -> option jsval)
| Settle (d : nat).

(** An actual argument in the [params] or [callback] position. *)
Inductive arg : Type :=
| AUndefined
| AObject (o : obj string)
| AFunction (f : func).

Definition is_function (a : arg) : bool :=
  match a with AFunction _ => true | _ => false end.

(** The properties [for-in] and [querystring.stringify] find in an argument. *)
Definition enumerable (a : arg) : obj string :=
  match a with AObject o => o | _ => [] end.

Definition stringify_arg (a : arg) : string :=
  match a with AObject o => Querystring.stringify o | _ => EmptyString end.

(** ** The client *)

Inductive hval : Type :=
| HStr (s : string)
| HNum (n : nat).

(** [protocols] has the two members [http] and [https]. *)
Inductive protocol_name : Type := http | https.

Record Options : Type := {
  headers : obj hval;
  callback_url : option string;
  rest_base : string;
  cookie_options : obj string;
  cookie_secret : option string;
  protocol : option protocol_name;
  app_id : option string;
  access_token : option string
}.

Record Client : Type := { options : Options }.

Definition VERSION : string := "1.0.0".

Definition defaults : Options := {|
  headers := [ ("Accept", HStr "*/*");
               ("Content-Type", HStr "application/x-www-form-urlencoded");
               ("Connection", HStr "close");
               ("User-Agent", HStr ("node-bangumi/" ++ VERSION)) ];
  callback_url := None;
  rest_base := "api.bgm.tv";
  cookie_options := [];
  cookie_secret := None;
  protocol := None;
  app_id := None;
  access_token := None
|}.

(** The [options] argument of the constructor: each member may be absent. *)
Record user_options : Type := {
  u_headers : option (obj hval);
  u_callback_url : option string;
  u_rest_base : option string;
  u_cookie_options : option (obj string);
  u_cookie_secret : option string;
  u_protocol : option protocol_name;
  u_app_id : option string;
  u_access_token : option string
}.

Definition no_options : user_options :=
  {| u_headers := None; u_callback_url := None; u_rest_base := None;
     u_cookie_options := None; u_cookie_secret := None; u_protocol := None;
     u_app_id := None; u_access_token := None |}.

Definition or_default {A : Type} (given : option A) (d : A) : A :=
  match given with Some a => a | None => d end.

Definition or_else {A : Type} (given d : option A) : option A :=
  match given with Some a => Some a | None => d end.

(** [this.options = utils.merge(defaults, options)]: the merge of above on the
    members of the options object, a member of [options] replacing the
    default of the same name. *)
Definition Bangumi (o : user_options) : Client :=
  {| options := {|
       headers := or_default (u_headers o) (headers defaults);
       callback_url := or_else (u_callback_url o) (callback_url defaults);
       rest_base := or_default (u_rest_base o) (rest_base defaults);
       cookie_options := or_default (u_cookie_options o) (cookie_options defaults);
       cookie_secret := or_else (u_cookie_secret o) (cookie_secret defaults);
       protocol := or_else (u_protocol o) (protocol defaults);
       app_id := or_else (u_app_id o) (app_id defaults);
       access_token := or_else (u_access_token o) (access_token defaults) |} |}.

Definition with_headers (hs : obj hval) (c : Client) : Client :=
  let o := options c in
  {| options := {|
       headers := hs;
       callback_url := callback_url o;
       rest_base := rest_base o;
       cookie_options := cookie_options o;
       cookie_secret := cookie_secret o;
       protocol := protocol o;
       app_id := app_id o;
       access_token := access_token o |} |}.

(** ** The world an executor runs in *)

(** The options object handed to [request], the body written on the request
    and whether [end] was called on it. *)
Record request : Type := {
  r_protocol : protocol_name;
  r_host : string;
  r_path : string;
  r_method : string;
  r_headers : obj hval;
  r_body : string;
  r_ended : bool
}.

(** The closure an executor leaves with the transport: the completion
    callback and the text accumulated in [data]. *)
Record listener : Type := { l_callback : func; l_data : string }.

Inductive deferred : Type :=
| Pending
| Resolved (v : jsval)
| Rejected (e : jsval).

Record World : Type := {
  this : Client;
  sent : list request;
  listeners : list listener;
  calls : list (nat * jsval * jsval);
  deferreds : list deferred
}.

Definition boot (c : Client) : World :=
  {| this := c; sent := []; listeners := []; calls := []; deferreds := [] |}.

Definition with_this (c : Client) (w : World) : World :=
  {| this := c; sent := sent w; listeners := listeners w; calls := calls w;
     deferreds := deferreds w |}.

Definition with_sent (s : list request) (w : World) : World :=
  {| this := this w; sent := s; listeners := listeners w; calls := calls w;
     deferreds := deferreds w |}.

Definition with_listeners (l : list listener) (w : World) : World :=
  {| this := this w; sent := sent w; listeners := l; calls := calls w;
     deferreds := deferreds w |}.

Definition with_calls (l : list (nat * jsval * jsval)) (w : World) : World :=
  {| this := this w; sent := sent w; listeners := listeners w; calls := l;
     deferreds := deferreds w |}.

Definition with_deferreds (l : list deferred) (w : World) : World :=
  {| this := this w; sent := sent w; listeners := listeners w; calls := calls w;
     deferreds := l |}.

(** A computation either completes normally or throws; what it did to the
    world before throwing stays done. *)
Inductive completion (A : Type) : Type :=
| Normal (a : A)
| Throw (e : jsval).
Arguments Normal {A} a.
Arguments Throw {A} e.

Definition M (A : Type) : Type := World -> completion A * World.

Definition ret {A : Type} (a : A) : M A := fun w => (Normal a, w).

Definition throw {A : Type} (e : jsval) : M A := fun w => (Throw e, w).

Definition bind {A B : Type} (m : M A) (k : A -> M B) : M B :=
  fun w =>
    match m w with
    | (Normal a, w') => k a w'
    | (Throw e, w') => (Throw e, w')
    end.

(** [try { m } catch (err) { handler }] *)
Definition try_catch {A : Type} (m : M A) (handler : jsval -> M A) : M A :=
  fun w =>
    match m w with
    | (Normal a, w') => (Normal a, w')
    | (Throw e, w') => handler e w'
    end.

Notation "x <- c1 ;; c2" := (bind c1 (fun x => c2))
  (at level 61, c1 at next level, right associativity).
Notation "c1 ;; c2" := (bind c1 (fun _ => c2))
  (at level 61, right associativity).

Definition read_options : M Options := fun w => (Normal (options (this w)), w).

(** [this.options.headers[k] = v] *)
Definition set_client_header (k : string) (v : hval) : M unit :=
  fun w => (Normal tt, with_this (with_headers (set k v (headers (options (this w)))) (this w)) w).

Fixpoint update_nth {A : Type} (i : nat) (f : A -> A) (l : list A) : list A :=
  match l, i with
  | [], _ => []
  | x :: l', 0 => f x :: l'
  | x :: l', S i' => x :: update_nth i' f l'
  end.

(** ** Functions and deferred values *)

Definition own_calls (id : nat) (log : list (nat * jsval * jsval)) : list (jsval * jsval) :=
  map (fun c => (snd (fst c), snd c)) (filter (fun c => Nat.eqb (fst (fst c)) id) log).

Definition settle_with (e v : jsval) (d : deferred) : deferred :=
  match d with
  | Pending => if is_null e then Resolved v else Rejected e
  | _ => d
  end.

(** [f(e, v)] *)
Definition invoke (f : func) (e v : jsval) : M unit :=
  fun w =>
    match f with
    | UserFn id behaviour =>
        let w' := with_calls (calls w ++ [(id, e, v)]) w in
        match behaviour (own_calls id (calls w)) e v with
        | Some x => (Throw x, w')
        | None => (Normal tt, w')
        end
    | Settle d => (Normal tt, with_deferreds (update_nth d (settle_with e v) (deferreds w)) w)
    end.

Definition new_deferred : M nat :=
  fun w => (Normal (List.length (deferreds w)), with_deferreds (deferreds w ++ [Pending]) w).

(** ** The transport *)

(** [protocols[protocolName].request(options, function(res){...})]: the
    request is created and the response listeners are left waiting. *)
Definition http_request (p : protocol_name) (host path method : string)
    (hs : obj hval) (cb : func) : M nat :=
  fun w =>
    (Normal (List.length (sent w)),
     with_listeners (listeners w ++ [{| l_callback := cb; l_data := EmptyString |}])
       (with_sent (sent w ++ [{| r_protocol := p; r_host := host; r_path := path;
                                 r_method := method; r_headers := hs;
                                 r_body := EmptyString; r_ended := false |}]) w)).

Definition write_body (data : string) (r : request) : request :=
  {| r_protocol := r_protocol r; r_host := r_host r; r_path := r_path r;
     r_method := r_method r; r_headers := r_headers r;
     r_body := r_body r ++ data; r_ended := r_ended r |}.

Definition end_body (r : request) : request :=
  {| r_protocol := r_protocol r; r_host := r_host r; r_path := r_path r;
     r_method := r_method r; r_headers := r_headers r;
     r_body := r_body r; r_ended := true |}.

(** [req.write(data)] *)
Definition req_write (req : nat) (data : string) : M unit :=
  fun w => (Normal tt, with_sent (update_nth req (write_body data) (sent w)) w).

(** [req.end()] *)
Definition req_end (req : nat) : M unit :=
  fun w => (Normal tt, with_sent (update_nth req end_body (sent w)) w).


(** ** The request executors *)

(** What a method of the client hands back. *)
Inductive retval : Type :=
| RUndefined
| RThis
| RDeferred (d : nat).

Definition INVALID_CALLBACK : jsval := JV (JStr "FAIL: INVALID CALLBACK.").
Definition INVALID_URL : jsval := JV (JStr "FAIL: INVALID URL.").

(** [if (typeof params === 'function') { callback = params; params = {}; }] *)
Definition shift_arguments (params callback : arg) : arg * arg :=
  if is_function params then (AObject [], params) else (params, callback).

(** [this.options.protocol || 'https'] *)
Definition protocolName (o : Options) : protocol_name := or_default (protocol o) https.

Definition bearer (token : string) : hval := HStr ("Bearer " ++ token).

(** [Bangumi.prototype._get] *)
Definition _get (url : string) (params callback : arg) : M retval :=
  let (params, callback) := shift_arguments params callback in
  match callback with
  | AFunction cb =>
      if negb (charAt0_is_slash url) then throw INVALID_URL
      else
        o <- read_options ;;
        let params :=
          match app_id o with
          | Some id => AObject (Utils.merge [("source", id)] (enumerable params))
          | None => params
          end in
        let query := stringify_arg params in
        let path := encodeURI (url ++ (if is_empty query then EmptyString else "?") ++ query) in
        (* options.headers is this.options.headers itself, not a copy of it *)
        match access_token o with
        | Some token => set_client_header "Authorization" (bearer token)
        | None => ret tt
        end ;;
        o' <- read_options ;;
        req <- http_request (protocolName o) (rest_base o) path "GET" (headers o') cb ;;
        req_end req ;;
        ret RThis
  | _ => throw INVALID_CALLBACK
  end.

(** [Bangumi.prototype._post] *)
Definition _post (url : string) (params callback : arg) : M retval :=
  let (params, callback) := shift_arguments params callback in
  match callback with
  | AFunction cb =>
      if negb (charAt0_is_slash url) then throw INVALID_URL
      else
        o <- read_options ;;
        let post_data := stringify_arg params in
        let hs := Utils.merge [("Content-Length", HNum (String.length post_data))] (headers o) in
        let path := encodeURI url in
        let hs :=
          match access_token o with
          | Some token => set "Authorization" (bearer token) hs
          | None => hs
          end in
        let path :=
          match app_id o with
          | Some id => path ++ "?" ++ Querystring.stringify [("source", id)]
          | None => path
          end in
        req <- http_request (protocolName o) (rest_base o) path "POST" hs cb ;;
        req_write req post_data ;;
        req_end req ;;
        ret RThis
  | _ => throw INVALID_CALLBACK
  end.

(** ** The dual-mode adapter and the public executors *)

Module Adapter.

(** Modelled from the spec: [utils.promiseOrCallback] ([lib/utils.js] is not
    among the sources).  "If a callback was supplied, invoke it with (error,
    value) directly": the unit of work runs with the callback as its
    completion function, and the call hands back what the unit of work
    returned.  "If not, return a deferred value: reject it when the
    completion function is called with a non-null error, resolve it with the
    value otherwise", one-shot as recommended.  An invalid-argument failure
    of the unit of work is "raised synchronously" in either mode. *)
Definition promiseOrCallback (callback : arg) (fn : func -> M retval) : M retval :=
  match callback with
  | AFunction cb => fn cb
  | _ =>
      d <- new_deferred ;;
      fn (Settle d) ;;
      ret (RDeferred d)
  end.

End Adapter.
Import Adapter.

(** [Bangumi.prototype.get]: the unit of work calls [_get] and returns
    nothing. *)
Definition get (url : string) (params callback : arg) : M retval :=
  promiseOrCallback callback (fun cb => _get url params (AFunction cb) ;; ret RUndefined).

(** [Bangumi.prototype.post] *)
Definition post (url : string) (params callback : arg) : M retval :=
  promiseOrCallback callback (fun cb => _post url params (AFunction cb) ;; ret RUndefined).

(** ** Endpoint methods

    Identifiers and names arrive as the text string concatenation makes of
    them. *)

Definition calendar (callback : arg) : M retval :=
  let url := "/calendar" in
  get url callback AUndefined ;;
  ret RThis.

Definition user (username : string) (callback : arg) : M retval :=
  let url := "/user/" ++ username in
  get url callback AUndefined.

Definition subject (subject_id : string) (params callback : arg) : M retval :=
  let url := "/subject/" ++ subject_id in
  get url params callback.

Definition ep (subject_id : string) (callback : arg) : M retval :=
  let url := "/subject/" ++ subject_id ++ "/ep" in
  get url callback AUndefined.

Definition collectionByUser (username : string) (params callback : arg) : M retval :=
  let url := "/user/" ++ username ++ "/collection" in
  get url params callback.

Definition search (keywords : string) (params callback : arg) : M retval :=
  let url := "/search/subject/" ++ keywords in
  get url params callback.

Definition collectionBySubject (subject_id : string) (params callback : arg) : M retval :=
  let url := "/collection/" ++ subject_id in
  get url params callback.

Definition progress (username : string) (params callback : arg) : M retval :=
  let url := "/user/" ++ username ++ "/progress" in
  get url params callback.

(** The warning [auth] prints on the console is no part of the world. *)
Definition auth (params callback : arg) : M retval :=
  let url := "/auth" in
  post url params callback.

Definition createCollection (subject_id : string) (params callback : arg) : M retval :=
  let url := "/collection/" ++ subject_id ++ "/create" in
  post url params callback.

Definition updateEp (ep_id status : string) (params callback : arg) : M retval :=
  let url := "/ep/" ++ ep_id ++ "/status/" ++ status in
  post url params callback.

Definition updateEps (subject_id : string) (params callback : arg) : M retval :=
  let url := "/subject/" ++ subject_id ++ "/update/watched_eps" in
  post url params callback.

(** ** Response events *)

Inductive event : Type :=
| Data (chunk : string)
| End
| Error (err : js_error).

(** [json.hasOwnProperty('error')] on a parsed value.  There is no member to
    read on [null]; a member named [hasOwnProperty] of the payload itself
    hides the method and cannot be called; arrays, strings, numbers and
    booleans have no own member of that name. *)
Definition has_own_error (j : json) : completion bool :=
  match j with
  | JNull => Throw (JErr (TypeError "Cannot read properties of null"))
  | JObj props =>
      if hasOwnProperty "hasOwnProperty" props
      then Throw (JErr (TypeError "json.hasOwnProperty is not a function"))
      else Normal (hasOwnProperty "error" props)
  | _ => Normal false
  end.

Definition lift {A : Type} (c : completion A) : M A := fun w => (c, w).

Definition append_data (chunk : string) (l : listener) : listener :=
  {| l_callback := l_callback l; l_data := l_data l ++ chunk |}.

Section Response.

(** [JSON.parse]: the parsed value, or the [SyntaxError] thrown. *)
Variable JSON_parse : string -> json + js_error.

(** The listener of ['end'], the same in [_get] and [_post]. *)
Definition on_end (l : listener) : M unit :=
  let callback := l_callback l in
  try_catch
    (match JSON_parse (l_data l) with
     | inl json =>
         has_error <- lift (has_own_error json) ;;
         if has_error then invoke callback (JV json) empty_object
         else invoke callback null (JV json)
     | inr err => throw (JErr err)
     end)
    (fun err => invoke callback err empty_object).

(** The listener of ['error']. *)
Definition on_error (l : listener) (err : js_error) : M unit :=
  invoke (l_callback l) (JErr err) empty_object.

(** The transport emits [ev] on the response whose listeners are number
    [i].  A chunk is the text that [data += chunk] appends. *)
Definition emit (i : nat) (ev : event) : M unit :=
  fun w =>
    match nth_error (listeners w) i with
    | None => (Normal tt, w)
    | Some l =>
        match ev with
        | Data chunk =>
            (Normal tt, with_listeners (update_nth i (append_data chunk) (listeners w)) w)
        | End => on_end l w
        | Error err => on_error l err w
        end
    end.

(** The events of one response in turn.  An exception no listener catches
    ends the run. *)
Fixpoint emit_all (i : nat) (evs : list event) : M unit :=
  match evs with
  | [] => ret tt
  | ev :: evs' => emit i ev ;; emit_all i evs'
  end.

(** One call of a method and then the events of the response to the request
    it made, if it made one: the world at the end. *)
Definition after {A : Type} (call : M A) (evs : list event) (w : World) : World :=
  match call w with
  | (Normal _, w') => snd (emit_all (List.length (listeners w)) evs w')
  | (Throw _, w') => w'
  end.

End Response.

(** The two executors under one name, and their public wrappers. *)
Inductive verb : Type := GET | POST.

Definition executor (v : verb) : string -> arg -> arg -> M retval :=
  match v with GET => _get | POST => _post end.

Definition public (v : verb) : string -> arg -> arg -> M retval :=
  match v with GET => get | POST => post end.

(** [JSON.parse] on the response bodies the examples below use; any other
    body of theirs is no JSON text. *)
Definition JSON_parse_sample (s : string) : json + js_error :=
  if String.eqb s "null" then inl JNull
  else if String.eqb s "{}" then inl (JObj [])
  else if String.eqb s "[]" then inl (JArr [])
  else inr (SyntaxError "Unexpected token < in JSON at position 0").

(** A callback that returns whatever it is given, and one that throws the
    first time it is called. *)
Definition quiet : func := UserFn 0 (fun _ _ _ => None).

Definition throws_once : func :=
  UserFn 0 (fun earlier _ _ =>
              match earlier with
              | [] => Some (JErr (TypeError "Cannot read properties of undefined"))
              | _ => None
              end).

Definition with_token (token : string) : user_options :=
  {| u_headers := None; u_callback_url := None; u_rest_base := None;
     u_cookie_options := None; u_cookie_secret := None; u_protocol := None;
     u_app_id := None; u_access_token := Some token |}.

Definition with_configured_headers (hs : obj hval) : user_options :=
  {| u_headers := Some hs; u_callback_url := None; u_rest_base := None;
     u_cookie_options := None; u_cookie_secret := None; u_protocol := None;
     u_app_id := None; u_access_token := None |}.

Definition with_app_id (id : string) : user_options :=
  {| u_headers := None; u_callback_url := None; u_rest_base := None;
     u_cookie_options := None; u_cookie_secret := None; u_protocol := None;
     u_app_id := Some id; u_access_token := None |}.

(** ** Reading the outcome of a call *)

(** The parameters a GET request carries in its query string. *)
Definition get_params (o : Options) (p : arg) : obj string :=
  match app_id o with
  | Some id => Utils.merge [("source", id)] (enumerable p)
  | None => enumerable p
  end.

Definition with_authorization (o : Options) (hs : obj hval) : obj hval :=
  match access_token o with
  | Some token => set "Authorization" (bearer token) hs
  | None => hs
  end.

Definition get_request (o : Options) (url : string) (p : arg) : request :=
  let query := Querystring.stringify (get_params o p) in
  {| r_protocol := protocolName o;
     r_host := rest_base o;
     r_path := encodeURI (url ++ (if is_empty query then EmptyString else "?") ++ query);
     r_method := "GET";
     r_headers := with_authorization o (headers o);
     r_body := EmptyString;
     r_ended := true |}.

Definition post_request (o : Options) (url : string) (p : arg) : request :=
  let post_data := Querystring.stringify (enumerable p) in
  {| r_protocol := protocolName o;
     r_host := rest_base o;
     r_path := match app_id o with
               | Some id => encodeURI url ++ "?source=" ++ Querystring.escape id
               | None => encodeURI url
               end;
     r_method := "POST";
     r_headers := with_authorization o
                    (Utils.merge [("Content-Length", HNum (String.length post_data))] (headers o));
     r_body := post_data;
     r_ended := true |}.

Definition request_of (v : verb) : Options -> string -> arg -> request :=
  match v with GET => get_request | POST => post_request end.

(** The client instance once a valid call has returned. *)
Definition client_after (v : verb) (c : Client) : Client :=
  match v, access_token (options c) with
  | GET, Some token => with_headers (set "Authorization" (bearer token) (headers (options c))) c
  | _, _ => c
  end.

(** The world once a valid call with completion callback [cb] has returned
    and the listeners have accumulated [data]. *)
Definition issued (v : verb) (url : string) (p : arg) (cb : func) (data : string)
    (w : World) : World :=
  {| this := client_after v (this w);
     sent := sent w ++ [request_of v (options (this w)) url p];
     listeners := listeners w ++ [{| l_callback := cb; l_data := data |}];
     calls := calls w;
     deferreds := deferreds w |}.

(** [var data = ''] and then [data += chunk] for each chunk. *)
Definition accumulate (chunks : list string) : string :=
  fold_left append chunks EmptyString.

Definition invalid_argument (e : jsval) : Prop :=
  e = INVALID_URL \/ e = INVALID_CALLBACK.

(** The state of a deferred value whose completion function received the
    given calls, first call first. *)
Definition settlement (received : list (jsval * jsval)) : deferred :=
  match received with
  | [] => Pending
  | (e, v) :: _ => if is_null e then Resolved v else Rejected e
  end.

(** The calls logged after the first [n]. *)
Definition received_since (n : nat) (w : World) : list (jsval * jsval) :=
  map (fun c => (snd (fst c), snd c)) (skipn n (calls w)).

Definition logged (id : nat) (a : jsval * jsval) : nat * jsval * jsval :=
  (id, fst a, snd a).

Section Classification.

Variable JSON_parse : string -> json + js_error.

(** The arguments of the first call the ['end'] listener makes when the
    accumulated text is [data]. *)
Definition classify (data : string) : jsval * jsval :=
  match JSON_parse data with
  | inl json =>
      match has_own_error json with
      | Normal true => (JV json, empty_object)
      | Normal false => (null, JV json)
      | Throw e => (e, empty_object)
      end
  | inr err => (JErr err, empty_object)
  end.

(** The first call, if any, that an event makes the listeners make. *)
Definition first_call (data : string) (ev : event) : option (jsval * jsval) :=
  match ev with
  | Data _ => None
  | End => Some (classify data)
  | Error err => Some (JErr err, empty_object)
  end.

(** The call the [catch] clause adds when the first call of the ['end']
    listener was made inside [try] and threw. *)
Definition retried (behaviour : list (jsval * jsval) -> jsval -> jsval -> option jsval)
    (earlier : list (jsval * jsval)) (data : string) : list (jsval * jsval) :=
  match JSON_parse data with
  | inl json =>
      match has_own_error json with
      | Normal _ =>
          match behaviour earlier (fst (classify data)) (snd (classify data)) with
          | Some x => [(x, empty_object)]
          | None => []
          end
      | Throw _ => []
      end
  | inr _ => []
  end.

Definition heard (data : string) (ev : event) : string :=
  match ev with
  | Data chunk => data ++ chunk
  | _ => data
  end.

End Classification.

(** ** The promise provider ([lib/promise_provider.js]) *)

Module PromiseProvider.

(** What the concatenation ['...' + lib] makes of a value: a text, or the
    exception the conversion to a string throws, as for a symbol or for an
    object that has no [toString]. *)
Inductive rendering : Type :=
| Renders (text : string)
| Throws (e : jsval).

(** A value offered as promise constructor: a function or anything else,
    with what string concatenation makes of it. *)
Inductive lib : Type :=
| LFunction (id : nat) (shown : rendering)
| LOther (shown : rendering).

Definition is_function (l : lib) : bool :=
  match l with LFunction _ _ => true | LOther _ => false end.

Definition shown (l : lib) : rendering :=
  match l with LFunction _ r => r | LOther r => r end.

(** [var store = { _promise: null }] *)
Record Store : Type := { _promise : option lib }.

Definition empty : Store := {| _promise := None |}.

Inductive outcome : Type :=
| Done
| AssertionError (message : string)
| Thrown (e : jsval).

(** [store.get] *)
Definition get (s : Store) : option lib := _promise s.

(** [store.set]: the message is built first, as an argument of [assert.ok];
    then the assertion [typeof lib === 'function'] is made, and then the
    assignment. *)
Definition set (l : lib) (s : Store) : outcome * Store :=
  match shown l with
  | Throws e => (Thrown e, s)
  | Renders text =>
      if is_function l then (Done, {| _promise := Some l |})
      else (AssertionError ("bangumi.Promise must be a function, got " ++ text), s)
  end.

(** Loading the module:
    [if (global.hasOwnProperty('Promise')) store.set(global.Promise)]. *)
Definition load (global_Promise : option lib) : outcome * Store :=
  match global_Promise with
  | Some p => set p empty
  | None => (Done, empty)
  end.

(** Calls of [store.set] one after the other, a caller going on after a
    failed one. *)
Definition set_each (ls : list lib) (s : Store) : Store :=
  fold_left (fun acc l => snd (set l acc)) ls s.

(** The values [store.set] stores. *)
Definition accepted (l : lib) : bool :=
  match shown l with
  | Renders _ => is_function l
  | Throws _ => false
  end.

End PromiseProvider.

(** [Bangumi.prototype.setPromiseProvider] *)
Definition setPromiseProvider (provider : PromiseProvider.lib) (s : PromiseProvider.Store) :
    PromiseProvider.outcome * PromiseProvider.Store :=
  PromiseProvider.set provider s.

(** ** The endpoint methods under one name *)

Inductive endpoint : Type :=
| Calendar
| User (username : string)
| Subject (subject_id : string)
| Ep (subject_id : string)
| CollectionByUser (username : string)
| Search (keywords : string)
| CollectionBySubject (subject_id : string)
| Progress (username : string)
| Auth
| CreateCollection (subject_id : string)
| UpdateEp (ep_id status : string)
| UpdateEps (subject_id : string).

(** The call of a method with the arguments that follow its identifiers;
    [calendar], [user] and [ep] take a callback only. *)
Definition call (e : endpoint) (params callback : arg) : M retval :=
  match e with
  | Calendar => calendar callback
  | User username => user username callback
  | Subject subject_id => subject subject_id params callback
  | Ep subject_id => ep subject_id callback
  | CollectionByUser username => collectionByUser username params callback
  | Search keywords => search keywords params callback
  | CollectionBySubject subject_id => collectionBySubject subject_id params callback
  | Progress username => progress username params callback
  | Auth => auth params callback
  | CreateCollection subject_id => createCollection subject_id params callback
  | UpdateEp ep_id status => updateEp ep_id status params callback
  | UpdateEps subject_id => updateEps subject_id params callback
  end.

Definition endpoint_url (e : endpoint) : string :=
  match e with
  | Calendar => "/calendar"
  | User username => "/user/" ++ username
  | Subject subject_id => "/subject/" ++ subject_id
  | Ep subject_id => "/subject/" ++ subject_id ++ "/ep"
  | CollectionByUser username => "/user/" ++ username ++ "/collection"
  | Search keywords => "/search/subject/" ++ keywords
  | CollectionBySubject subject_id => "/collection/" ++ subject_id
  | Progress username => "/user/" ++ username ++ "/progress"
  | Auth => "/auth"
  | CreateCollection subject_id => "/collection/" ++ subject_id ++ "/create"
  | UpdateEp ep_id status => "/ep/" ++ ep_id ++ "/status/" ++ status
  | UpdateEps subject_id => "/subject/" ++ subject_id ++ "/update/watched_eps"
  end.

Definition endpoint_verb (e : endpoint) : verb :=
  match e with
  | Auth | CreateCollection _ | UpdateEp _ _ | UpdateEps _ => POST
  | _ => GET
  end.

Definition verb_name (v : verb) : string :=
  match v with GET => "GET" | POST => "POST" end.

(** ** Predicates on events and on text *)

(** The events that make the listeners call the completion callback. *)
Definition terminal (ev : event) : bool :=
  match ev with Data _ => false | _ => true end.

Fixpoint every_char (f : ascii -> bool) (s : string) : bool :=
  match s with
  | EmptyString => true
  | String c s' => f c && every_char f s'
  end.

(** The characters [encodeURI] lets through, and the percent sign of its
    escapes. *)
Definition uri_safe (c : ascii) : bool := uri_unescaped c || Ascii.eqb c "%".

(** The characters of an [application/x-www-form-urlencoded] body. *)
Definition form_safe (c : ascii) : bool := Querystring.unescaped c || str_mem c "%=&".

(** The text [{"hasOwnProperty":true}] and a parser that knows it. *)
Definition shadowing_body : string :=
  "{" ++ String "034" ("hasOwnProperty" ++ String "034" ":true}").

Definition JSON_parse_shadowing (s : string) : json + js_error :=
  if String.eqb s shadowing_body then inl (JObj [("hasOwnProperty", JBool true)])
  else JSON_parse_sample s.

(** * Properties *)

(** ** Lists and objects *)

Lemma update_nth_last {A : Type} (f : A -> A) (l : list A) (x : A) :
  update_nth (List.length l) f (l ++ [x])%list = (l ++ [f x])%list.
Proof.
  induction l as [|y l IH]; simpl; [reflexivity|].
  now rewrite IH.
Qed.

Lemma nth_error_last {A : Type} (l : list A) (x : A) :
  nth_error (l ++ [x])%list (List.length l) = Some x.
Proof.
  induction l as [|y l IH]; simpl; [reflexivity | exact IH].
Qed.

Lemma nth_error_update_nth {A : Type} (f : A -> A) (l : list A) (i : nat) (x : A) :
  nth_error l i = Some x -> nth_error (update_nth i f l) i = Some (f x).
Proof.
  revert i; induction l as [|y l IH]; intros [|i] H; simpl in *; try discriminate.
  - now inversion H.
  - now apply IH.
Qed.

Lemma length_update_nth {A : Type} (f : A -> A) (l : list A) (i : nat) :
  List.length (update_nth i f l) = List.length l.
Proof.
  revert i; induction l as [|y l IH]; intros [|i]; simpl; auto.
Qed.

Module ObjFacts.

Lemma lookup_replace_same {V : Type} (k : string) (v : V) (o : obj V) :
  hasOwnProperty k o = true -> lookup k (replace k v o) = Some v.
Proof.
  unfold hasOwnProperty.
  induction o as [|[k' v'] o IH]; simpl; [discriminate|].
  destruct (String.eqb k k') eqn:E; simpl; rewrite E; auto.
Qed.

Lemma lookup_replace_other {V : Type} (k k0 : string) (v : V) (o : obj V) :
  k0 <> k -> lookup k0 (replace k v o) = lookup k0 o.
Proof.
  intros Hne.
  induction o as [|[k' v'] o IH]; simpl; [reflexivity|].
  destruct (String.eqb k k') eqn:E; simpl.
  - apply String.eqb_eq in E; subst k'.
    destruct (String.eqb k0 k) eqn:E0; [apply String.eqb_eq in E0; contradiction | reflexivity].
  - now rewrite IH.
Qed.

Lemma lookup_insert_index_same {V : Type} (n : N) (k : string) (v : V) (o : obj V) :
  hasOwnProperty k o = false -> lookup k (insert_index n k v o) = Some v.
Proof.
  unfold hasOwnProperty.
  induction o as [|[k' v'] o IH]; simpl; intros H.
  - now rewrite String.eqb_refl.
  - destruct (String.eqb k k') eqn:E; [discriminate|].
    destruct (array_index k') as [m|]; [destruct (m <? n)%N|]; simpl;
      rewrite ?String.eqb_refl, ?E; auto.
Qed.

Lemma lookup_insert_index_other {V : Type} (n : N) (k k0 : string) (v : V) (o : obj V) :
  k0 <> k -> lookup k0 (insert_index n k v o) = lookup k0 o.
Proof.
  intros Hne. apply String.eqb_neq in Hne.
  induction o as [|[k' v'] o IH]; simpl.
  - now rewrite Hne.
  - destruct (array_index k') as [m|]; [destruct (m <? n)%N|]; simpl;
      rewrite ?Hne, ?IH; reflexivity.
Qed.

Lemma lookup_app {V : Type} (k : string) (o1 o2 : obj V) :
  lookup k (o1 ++ o2)%list = match lookup k o1 with Some v => Some v | None => lookup k o2 end.
Proof.
  induction o1 as [|[k' v'] o1 IH]; simpl; [reflexivity|].
  destruct (String.eqb k k'); auto.
Qed.

(** Reading a member back after [o[k] = v]. *)
Lemma lookup_set_same {V : Type} (k : string) (v : V) (o : obj V) :
  lookup k (set k v o) = Some v.
Proof.
  unfold set. destruct (hasOwnProperty k o) eqn:H.
  - now apply lookup_replace_same.
  - destruct (array_index k).
    + now apply lookup_insert_index_same.
    + rewrite lookup_app. unfold hasOwnProperty in H.
      destruct (lookup k o); [discriminate|]. simpl. now rewrite String.eqb_refl.
Qed.

Lemma lookup_set_other {V : Type} (k k0 : string) (v : V) (o : obj V) :
  k0 <> k -> lookup k0 (set k v o) = lookup k0 o.
Proof.
  intros Hne. unfold set. destruct (hasOwnProperty k o).
  - now apply lookup_replace_other.
  - destruct (array_index k).
    + now apply lookup_insert_index_other.
    + rewrite lookup_app. destruct (lookup k0 o); [reflexivity|].
      simpl. apply String.eqb_neq in Hne. now rewrite Hne.
Qed.

(** A member the overriding mapping does not name keeps the value the first
    mapping gave it. *)
Lemma lookup_merge_absent {V : Type} (k : string) (d o : obj V) :
  lookup k o = None -> lookup k (Utils.merge d o) = lookup k d.
Proof.
  unfold Utils.merge. revert d.
  induction o as [|[k' v'] o IH]; simpl; intros d H; [reflexivity|].
  destruct (String.eqb k k') eqn:E; [discriminate|].
  rewrite IH by exact H. apply lookup_set_other.
  now apply String.eqb_neq.
Qed.

Lemma lookup_not_named {V : Type} (k : string) (o : obj V) :
  ~ In k (map fst o) -> lookup k o = None.
Proof.
  induction o as [|[k' v'] o IH]; simpl; intros H; [reflexivity|].
  destruct (String.eqb k k') eqn:E.
  - apply String.eqb_eq in E. subst k'. exfalso. apply H. now left.
  - apply IH. intros Hin. apply H. now right.
Qed.

(** A member the overriding mapping names takes the value given there. *)
Lemma lookup_merge_present {V : Type} (k : string) (v : V) (d o : obj V) :
  NoDup (map fst o) -> lookup k o = Some v -> lookup k (Utils.merge d o) = Some v.
Proof.
  unfold Utils.merge. revert d.
  induction o as [|[k' v'] o IH]; simpl; intros d Hnd H; [discriminate|].
  inversion Hnd as [|x l Hnotin Hnd']; subst.
  destruct (String.eqb k k') eqn:E.
  - apply String.eqb_eq in E. subst k'. inversion H; subst v'.
    pose proof (lookup_merge_absent k (set k v d) o (lookup_not_named k o Hnotin)) as Habs.
    unfold Utils.merge in Habs. rewrite Habs. apply lookup_set_same.
  - now apply IH.
Qed.

End ObjFacts.

(** ** The executors on valid and on invalid arguments *)

Lemma stringify_arg_enumerable (p : arg) :
  stringify_arg p = Querystring.stringify (enumerable p).
Proof. destruct p; reflexivity. Qed.

Lemma shift_arguments_callback (params callback : arg) :
  is_function params = false -> shift_arguments params callback = (params, callback).
Proof. unfold shift_arguments; now intros ->. Qed.

(** A call whose path starts with a slash and whose callback is a function
    returns the client instance, with one request made and one set of
    listeners waiting. *)
Lemma executor_valid (v : verb) (url : string) (params callback p : arg) (cb : func) (w : World) :
  charAt0_is_slash url = true ->
  shift_arguments params callback = (p, AFunction cb) ->
  executor v url params callback w = (Normal RThis, issued v url p cb EmptyString w).
Proof.
  intros Hurl Hshift.
  destruct w as [[o] s l c d].
  destruct v; unfold executor, _get, _post, issued; rewrite Hshift, Hurl; simpl;
    unfold bind, read_options, http_request, req_write, req_end, ret,
      with_sent, with_listeners; simpl;
    unfold get_request, post_request, get_params, client_after, with_authorization; simpl.
  - destruct (access_token o) eqn:Ht, (app_id o) eqn:Ha; simpl;
      unfold bind, read_options, http_request, req_write, req_end, ret,
        with_sent, with_listeners, with_this; simpl;
      rewrite ?Ht, ?update_nth_last, ?stringify_arg_enumerable; reflexivity.
  - rewrite !update_nth_last, ?stringify_arg_enumerable.
    unfold write_body, end_body; simpl.
    destruct (access_token o) eqn:Ht, (app_id o) eqn:Ha; simpl; reflexivity.
Qed.

Lemma executor_invalid_callback (v : verb) (url : string) (params callback : arg) (w : World) :
  is_function (snd (shift_arguments params callback)) = false ->
  executor v url params callback w = (Throw INVALID_CALLBACK, w).
Proof.
  intros H. destruct v; unfold executor, _get, _post;
    destruct (shift_arguments params callback) as [p [| |f]]; simpl in *;
    try reflexivity; discriminate.
Qed.

Lemma executor_invalid_url (v : verb) (url : string) (params callback : arg) (w : World) :
  charAt0_is_slash url = false ->
  is_function (snd (shift_arguments params callback)) = true ->
  executor v url params callback w = (Throw INVALID_URL, w).
Proof.
  intros Hurl H. destruct v; unfold executor, _get, _post;
    destruct (shift_arguments params callback) as [p [| |f]]; simpl in *;
    try discriminate; rewrite Hurl; reflexivity.
Qed.

(** ** One event at a time *)

Section ResponseFacts.

Variable JSON_parse : string -> json + js_error.

Lemma invoke_user (id : nat) (b : list (jsval * jsval) -> jsval -> jsval -> option jsval)
    (e v : jsval) (w : World) :
  invoke (UserFn id b) e v w =
    (match b (own_calls id (calls w)) e v with Some x => Throw x | None => Normal tt end,
     with_calls (calls w ++ [(id, e, v)]) w).
Proof. unfold invoke. destruct (b _ e v); reflexivity. Qed.

(** The completion function of a deferred value never throws: the ['end']
    listener calls it once, with the classified outcome. *)
Lemma on_end_settle (d : nat) (data : string) (w : World) :
  on_end JSON_parse {| l_callback := Settle d; l_data := data |} w =
    (Normal tt,
     with_deferreds
       (update_nth d (settle_with (fst (classify JSON_parse data)) (snd (classify JSON_parse data)))
          (deferreds w)) w).
Proof.
  unfold on_end, try_catch, classify, bind, lift, throw; simpl.
  destruct (JSON_parse data) as [j|err]; [|reflexivity].
  destruct (has_own_error j) as [[|]|e]; reflexivity.
Qed.

(** A caller's callback is first called with the classified outcome; when
    that call was made inside [try] and throws, the callback is called again
    from the [catch] clause. *)
Lemma on_end_user (id : nat) (b : list (jsval * jsval) -> jsval -> jsval -> option jsval)
    (data : string) (w : World) :
  snd (on_end JSON_parse {| l_callback := UserFn id b; l_data := data |} w) =
    with_calls (calls w ++ map (logged id)
                  (classify JSON_parse data ::
                   retried JSON_parse b (own_calls id (calls w)) data)) w.
Proof.
  unfold on_end, try_catch, classify, retried, classify, bind, lift, throw; simpl.
  destruct (JSON_parse data) as [j|err].
  - destruct (has_own_error j) as [[|]|e]; simpl.
    + destruct (b (own_calls id (calls w)) (JV j) empty_object) as [x|]; [|reflexivity].
      destruct (b _ x empty_object); simpl; unfold with_calls; simpl;
        now rewrite <- app_assoc.
    + destruct (b (own_calls id (calls w)) null (JV j)) as [x|]; [|reflexivity].
      destruct (b _ x empty_object); simpl; unfold with_calls; simpl;
        now rewrite <- app_assoc.
    + now destruct (b _ e empty_object).
  - now destruct (b _ (JErr err) empty_object).
Qed.

(** What one event does when the completion callback is the caller's. *)
Lemma emit_user (i id : nat) (b : list (jsval * jsval) -> jsval -> jsval -> option jsval)
    (data : string) (ev : event) (w : World) :
  nth_error (listeners w) i = Some {| l_callback := UserFn id b; l_data := data |} ->
  exists r w' rest,
    emit JSON_parse i ev w = (r, w') /\
    this w' = this w /\ sent w' = sent w /\ deferreds w' = deferreds w /\
    nth_error (listeners w') i =
      Some {| l_callback := UserFn id b; l_data := heard data ev |} /\
    calls w' = (calls w ++ map (logged id)
                 match first_call JSON_parse data ev with
                 | Some a => a :: rest
                 | None => []
                 end)%list /\
    (first_call JSON_parse data ev = None -> r = Normal tt).
Proof.
  intros Hl. unfold emit. rewrite Hl. destruct ev as [chunk| |err].
  - exists (Normal tt), (with_listeners (update_nth i (append_data chunk) (listeners w)) w), [].
    simpl. rewrite app_nil_r. repeat split.
    now rewrite (nth_error_update_nth _ _ _ _ Hl).
  - pose proof (on_end_user id b data w) as Hrest.
    destruct (on_end JSON_parse _ w) as [r w'] eqn:E. simpl in Hrest. subst w'.
    eexists r, _, _. split; [reflexivity|].
    simpl. repeat split; auto. discriminate.
  - unfold on_error. cbn [l_callback]. rewrite invoke_user.
    eexists _, _, []. split; [reflexivity|]. simpl. repeat split; auto. discriminate.
Qed.

(** What one event does when the completion callback settles deferred [d]. *)
Lemma emit_settle (i d : nat) (data : string) (ev : event) (w : World) :
  nth_error (listeners w) i = Some {| l_callback := Settle d; l_data := data |} ->
  exists w',
    emit JSON_parse i ev w = (Normal tt, w') /\
    this w' = this w /\ sent w' = sent w /\ calls w' = calls w /\
    nth_error (listeners w') i =
      Some {| l_callback := Settle d; l_data := heard data ev |} /\
    deferreds w' =
      match first_call JSON_parse data ev with
      | Some a => update_nth d (settle_with (fst a) (snd a)) (deferreds w)
      | None => deferreds w
      end.
Proof.
  intros Hl. unfold emit. rewrite Hl. destruct ev as [chunk| |err].
  - eexists. split; [reflexivity|]. simpl. repeat split.
    now rewrite (nth_error_update_nth _ _ _ _ Hl).
  - rewrite on_end_settle. eexists. split; [reflexivity|]. simpl. repeat split; auto.
  - unfold on_error; simpl. eexists. split; [reflexivity|]. simpl. repeat split; auto.
Qed.

End ResponseFacts.

(** ** One response from first chunk to last event *)

Lemma settlement_grows (received : list (jsval * jsval)) (a : jsval * jsval)
    (rest : list (jsval * jsval)) :
  settle_with (fst a) (snd a) (settlement received) = settlement (received ++ a :: rest).
Proof.
  destruct received as [|[e v] received]; simpl.
  - destruct a as [e v]; reflexivity.
  - destruct (is_null e); reflexivity.
Qed.

Lemma settled_stays (e v : jsval) (s : deferred) :
  s <> Pending -> settle_with e v s = s.
Proof. destruct s; [contradiction | reflexivity | reflexivity]. Qed.

Lemma settlement_settled (a : jsval * jsval) (rest : list (jsval * jsval)) :
  settlement (a :: rest) <> Pending.
Proof. destruct a as [e v]; simpl; destruct (is_null e); discriminate. Qed.

Lemma received_since_base (base : list (nat * jsval * jsval)) (id : nat)
    (extra : list (jsval * jsval)) (w : World) :
  calls w = (base ++ map (logged id) extra)%list ->
  received_since (List.length base) w = extra.
Proof.
  intros H. unfold received_since. rewrite H.
  replace (skipn (List.length base) (base ++ map (logged id) extra))
    with (map (logged id) extra).
  - rewrite map_map. clear H. induction extra as [|[e v] extra IH]; [reflexivity|].
    cbn [map]. now rewrite IH.
  - clear H. induction base as [|c base IH]; simpl; auto.
Qed.

Lemma public_callback (v : verb) (url : string) (params : arg) (cb : func) :
  public v url params (AFunction cb) =
    (executor v url params (AFunction cb) ;; ret RUndefined).
Proof. destruct v; reflexivity. Qed.

Lemma public_deferred (v : verb) (url : string) (params callback : arg) :
  is_function callback = false ->
  public v url params callback =
    (d <- new_deferred ;;
     (executor v url params (AFunction (Settle d)) ;; ret RUndefined) ;;
     ret (RDeferred d)).
Proof. destruct v, callback; simpl; intros H; try reflexivity; discriminate. Qed.

Section ResponseRuns.

Variable JSON_parse : string -> json + js_error.

Lemma emit_issued_data (v : verb) (url : string) (p : arg) (cb : func)
    (data chunk : string) (w : World) :
  emit JSON_parse (List.length (listeners w)) (Data chunk) (issued v url p cb data w) =
    (Normal tt, issued v url p cb (data ++ chunk) w).
Proof.
  unfold emit, issued; simpl. rewrite nth_error_last.
  unfold with_listeners; simpl. now rewrite update_nth_last.
Qed.

Lemma emit_all_issued_data (v : verb) (url : string) (p : arg) (cb : func)
    (chunks : list string) (evs : list event) (data : string) (w : World) :
  emit_all JSON_parse (List.length (listeners w)) (map Data chunks ++ evs)
      (issued v url p cb data w) =
    emit_all JSON_parse (List.length (listeners w)) evs
      (issued v url p cb (fold_left append chunks data) w).
Proof.
  revert data. induction chunks as [|c chunks IH]; intros data; simpl; [reflexivity|].
  unfold bind at 1. rewrite emit_issued_data. apply IH.
Qed.

Lemma emit_all_one (i : nat) (ev : event) (w : World) :
  snd (emit_all JSON_parse i [ev] w) = snd (emit JSON_parse i ev w).
Proof.
  simpl. unfold bind. destruct (emit JSON_parse i ev w) as [[[]|e] w']; reflexivity.
Qed.

(** A valid call followed by the chunks of the body and one more event. *)
Lemma after_valid (v : verb) (url : string) (params callback p : arg) (cb : func)
    (chunks : list string) (ev : event) (w : World) :
  charAt0_is_slash url = true ->
  shift_arguments params callback = (p, AFunction cb) ->
  after JSON_parse (executor v url params callback) (map Data chunks ++ [ev]) w =
    snd (emit JSON_parse (List.length (listeners w)) ev
           (issued v url p cb (accumulate chunks) w)).
Proof.
  intros Hurl Hshift. unfold after.
  rewrite (executor_valid v url params callback p cb w Hurl Hshift).
  rewrite emit_all_issued_data. apply emit_all_one.
Qed.

Lemma emit_issued_end_user (v : verb) (url : string) (p : arg) (id : nat)
    (b : list (jsval * jsval) -> jsval -> jsval -> option jsval) (data : string) (w : World) :
  calls (snd (emit JSON_parse (List.length (listeners w)) End
                (issued v url p (UserFn id b) data w))) =
    (calls w ++ map (logged id)
       (classify JSON_parse data :: retried JSON_parse b (own_calls id (calls w)) data))%list.
Proof.
  unfold emit. cbn [listeners issued]. rewrite nth_error_last.
  now rewrite on_end_user.
Qed.

Lemma emit_issued_error_user (v : verb) (url : string) (p : arg) (id : nat)
    (b : list (jsval * jsval) -> jsval -> jsval -> option jsval) (data : string)
    (err : js_error) (w : World) :
  calls (snd (emit JSON_parse (List.length (listeners w)) (Error err)
                (issued v url p (UserFn id b) data w))) =
    (calls w ++ [(id, JErr err, empty_object)])%list.
Proof.
  unfold emit. cbn [listeners issued]. rewrite nth_error_last.
  unfold on_error. cbn [l_callback]. now rewrite invoke_user.
Qed.

(** Once settled, a deferred value keeps its state whatever comes next. *)
Lemma settled_for_good (i d : nat) (evs : list event) (data : string) (s : deferred)
    (w : World) :
  nth_error (listeners w) i = Some {| l_callback := Settle d; l_data := data |} ->
  nth_error (deferreds w) d = Some s ->
  s <> Pending ->
  nth_error (deferreds (snd (emit_all JSON_parse i evs w))) d = Some s.
Proof.
  revert data w. induction evs as [|ev evs IH]; intros data w Hl Hd Hs; [exact Hd|].
  destruct (emit_settle JSON_parse i d data ev w Hl) as (w' & E & _ & _ & _ & Hl' & Hd').
  simpl. unfold bind. rewrite E.
  apply (IH _ _ Hl'); [|exact Hs].
  rewrite Hd'. destruct (first_call JSON_parse data ev) as [a|]; [|exact Hd].
  rewrite (nth_error_update_nth _ _ _ _ Hd). now rewrite settled_stays.
Qed.

(** The same events heard by a caller's callback and by the completion
    function of a deferred value: the deferred value is in the state the
    calls received by the callback settle it to. *)
Lemma deferred_follows_callback (i d id : nat)
    (b : list (jsval * jsval) -> jsval -> jsval -> option jsval)
    (base : list (nat * jsval * jsval)) (evs : list event) :
  forall (data : string) (extra : list (jsval * jsval)) (wc wp : World),
    nth_error (listeners wc) i = Some {| l_callback := UserFn id b; l_data := data |} ->
    nth_error (listeners wp) i = Some {| l_callback := Settle d; l_data := data |} ->
    calls wc = (base ++ map (logged id) extra)%list ->
    nth_error (deferreds wp) d = Some (settlement extra) ->
    exists extra',
      calls (snd (emit_all JSON_parse i evs wc)) = (base ++ map (logged id) extra')%list /\
      nth_error (deferreds (snd (emit_all JSON_parse i evs wp))) d = Some (settlement extra').
Proof.
  induction evs as [|ev evs IH]; intros data extra wc wp Hc Hp Hcalls Hd.
  - exists extra. now split.
  - destruct (emit_user JSON_parse i id b data ev wc Hc)
      as (r & wc' & rest & Ec & _ & _ & _ & Hc' & Hcalls' & Hr).
    destruct (emit_settle JSON_parse i d data ev wp Hp) as (wp' & Ep & _ & _ & _ & Hp' & Hd').
    set (new := match first_call JSON_parse data ev with
                | Some a => a :: rest
                | None => []
                end) in *.
    assert (Hcalls1 : calls wc' = (base ++ map (logged id) (extra ++ new))%list).
    { rewrite Hcalls', Hcalls, map_app. now rewrite app_assoc. }
    assert (Hd1 : nth_error (deferreds wp') d = Some (settlement (extra ++ new))).
    { rewrite Hd'. subst new. destruct (first_call JSON_parse data ev) as [a|].
      - rewrite (nth_error_update_nth _ _ _ _ Hd). now rewrite (settlement_grows extra a rest).
      - now rewrite app_nil_r. }
    simpl. unfold bind. rewrite Ec, Ep.
    destruct r as [[]|e].
    + exact (IH _ _ _ _ Hc' Hp' Hcalls1 Hd1).
    + exists (extra ++ new)%list. split; [exact Hcalls1|].
      apply (settled_for_good i d evs _ _ wp' Hp' Hd1).
      subst new. destruct (first_call JSON_parse data ev) as [a|].
      * destruct extra as [|x extra];
          [apply (settlement_settled a rest) | apply (settlement_settled x (extra ++ a :: rest))].
      * now specialize (Hr eq_refl).
Qed.

End ResponseRuns.

(** ** Calls through the public wrappers *)

Lemma public_callback_valid (v : verb) (url : string) (params : arg) (cb : func) (w : World) :
  charAt0_is_slash url = true ->
  is_function params = false ->
  public v url params (AFunction cb) w = (Normal RUndefined, issued v url params cb EmptyString w).
Proof.
  intros Hurl Hp. rewrite public_callback. unfold bind.
  rewrite (executor_valid v url params (AFunction cb) params cb w Hurl
             (shift_arguments_callback _ _ Hp)).
  reflexivity.
Qed.

(** Without a callback in the third position the wrapper creates a deferred
    value and hands its completion function to the executor. *)
Lemma public_deferred_valid (v : verb) (url : string) (params callback p : arg) (cb : func)
    (w : World) :
  charAt0_is_slash url = true ->
  is_function callback = false ->
  shift_arguments params (AFunction (Settle (List.length (deferreds w)))) = (p, AFunction cb) ->
  public v url params callback w =
    (Normal (RDeferred (List.length (deferreds w))),
     issued v url p cb EmptyString (with_deferreds (deferreds w ++ [Pending]) w)).
Proof.
  intros Hurl Hc Hshift. rewrite (public_deferred v url params callback Hc).
  unfold bind at 1. unfold new_deferred. unfold bind.
  rewrite (executor_valid v url params _ p cb _ Hurl Hshift).
  reflexivity.
Qed.


Lemma unescaped_uri_unescaped (c : ascii) :
  Querystring.unescaped c = true -> uri_unescaped c = true.
Proof.
  unfold Querystring.unescaped, uri_unescaped.
  destruct (is_alnum c); [reflexivity|]. simpl.
  repeat (destruct (Ascii.eqb c _); [intros _; repeat rewrite orb_true_r; reflexivity|]).
  discriminate.
Qed.

(** The unit of work that [get] and [post] give the adapter returns nothing,
    whatever the executor returned. *)
Lemma unit_of_work_returns_undefined (v : verb) (url : string) (params : arg) (cb : func)
    (w w' : World) (r : retval) :
  (executor v url params (AFunction cb) ;; ret RUndefined) w = (Normal r, w') ->
  r = RUndefined.
Proof.
  unfold bind, ret. destruct (executor v url params (AFunction cb) w) as [[r0|e] w0];
    intros H; inversion H; reflexivity.
Qed.

(** Called through the public wrappers, with or without callback, a path
    without leading slash throws before any request is made. *)
Lemma public_invalid_url (v : verb) (url : string) (params callback : arg) (w : World) :
  charAt0_is_slash url = false ->
  fst (public v url params callback w) = Throw INVALID_URL /\
  sent (snd (public v url params callback w)) = sent w /\
  listeners (snd (public v url params callback w)) = listeners w /\
  calls (snd (public v url params callback w)) = calls w.
Proof.
  intros Hurl.
  assert (Hshift : forall f, is_function (snd (shift_arguments params (AFunction f))) = true).
  { intros f. unfold shift_arguments. destruct params; reflexivity. }
  destruct (is_function callback) eqn:Hc.
  - destruct callback as [| |cb]; try discriminate.
    rewrite public_callback. unfold bind.
    rewrite (executor_invalid_url v url params _ w Hurl (Hshift cb)).
    repeat split.
  - rewrite (public_deferred v url params callback Hc).
    unfold bind, new_deferred.
    rewrite (executor_invalid_url v url params _ _ Hurl (Hshift _)).
    repeat split.
Qed.

(** The request [get(url, callback)] makes is the one [_get(url, callback)]
    makes. *)
Lemma get_with_callback_second_makes_same_request (url : string) (cb : func) (w : World) :
  charAt0_is_slash url = true ->
  sent (snd (get url (AFunction cb) AUndefined w)) =
    sent (snd (_get url (AFunction cb) AUndefined w)).
Proof.
  intros Hurl.
  change (get url (AFunction cb) AUndefined w) with (public GET url (AFunction cb) AUndefined w).
  change (_get url (AFunction cb) AUndefined w)
    with (executor GET url (AFunction cb) AUndefined w).
  rewrite (public_deferred_valid GET url (AFunction cb) AUndefined (AObject []) cb w
             Hurl eq_refl eq_refl).
  rewrite (executor_valid GET url (AFunction cb) AUndefined (AObject []) cb w Hurl eq_refl).
  reflexivity.
Qed.

(** No event of a response changes the client. *)
Lemma emit_leaves_client (JSON_parse : string -> json + js_error) (i : nat) (ev : event)
    (w : World) :
  this (snd (emit JSON_parse i ev w)) = this w.
Proof.
  unfold emit. destruct (nth_error (listeners w) i) as [[[id b|d] data]|]; [| |reflexivity].
  - destruct ev as [chunk| |err]; [reflexivity| |].
    + now rewrite on_end_user.
    + unfold on_error. cbn [l_callback]. now rewrite invoke_user.
  - destruct ev as [chunk| |err]; [reflexivity| |reflexivity].
    now rewrite on_end_settle.
Qed.

Lemma emit_all_leaves_client (JSON_parse : string -> json + js_error) (i : nat)
    (evs : list event) (w : World) :
  this (snd (emit_all JSON_parse i evs w)) = this w.
Proof.
  revert w. induction evs as [|ev evs IH]; intros w; [reflexivity|].
  simpl. unfold bind. pose proof (emit_leaves_client JSON_parse i ev w) as H.
  destruct (emit JSON_parse i ev w) as [[[]|e] w1]; simpl in H.
  - now rewrite IH.
  - exact H.
Qed.

(** * The claims *)

Section Claims.

Variable JSON_parse : string -> json + js_error.

(** The classification of the ['end'] listener where the own-property test
    can be made: a payload with an [error] member is the error argument, with
    [{}] as the result; any other payload is the result, with [null] as the
    error. *)
Lemma classify_error_member (data : string) (j : json) :
  JSON_parse data = inl j ->
  has_own_error j = Normal true ->
  classify JSON_parse data = (JV j, empty_object).
Proof. unfold classify. now intros -> ->. Qed.

Lemma classify_no_error_member (data : string) (j : json) :
  JSON_parse data = inl j ->
  has_own_error j = Normal false ->
  classify JSON_parse data = (null, JV j).
Proof. unfold classify. now intros -> ->. Qed.

(** The first call a caller's callback receives at the end of a response is
    the classified outcome of the accumulated body. *)
Lemma callback_receives_classification (v : verb) (url : string) (params callback p : arg)
    (id : nat) (b : list (jsval * jsval) -> jsval -> jsval -> option jsval)
    (chunks : list string) (w : World) :
  charAt0_is_slash url = true ->
  shift_arguments params callback = (p, AFunction (UserFn id b)) ->
  calls (after JSON_parse (executor v url params callback) (map Data chunks ++ [End]) w) =
    (calls w ++ map (logged id)
       (classify JSON_parse (accumulate chunks) ::
        retried JSON_parse b (own_calls id (calls w)) (accumulate chunks)))%list.
Proof.
  intros Hurl Hshift.
  rewrite (after_valid JSON_parse v url params callback p _ chunks End w Hurl Hshift).
  apply emit_issued_end_user.
Qed.

(** C1.  The claim has every body that parses, and whose payload has no
    [error] member, delivered as [(null, payload)].  It fails on the body
    [null]: the parsed payload is [null], the test
    [json.hasOwnProperty('error')] throws on it inside [try], and the [catch]
    clause calls the callback once, with that [TypeError] as the error and
    [{}] as the result. *)
Theorem C1_null_payload_is_delivered_as_error :
  forall (v : verb) (url : string) (params callback p : arg) (id : nat)
    (b : list (jsval * jsval) -> jsval -> jsval -> option jsval)
    (chunks : list string) (w : World),
    charAt0_is_slash url = true ->
    shift_arguments params callback = (p, AFunction (UserFn id b)) ->
    JSON_parse (accumulate chunks) = inl JNull ->
    calls (after JSON_parse (executor v url params callback) (map Data chunks ++ [End]) w) =
      (calls w ++ [(id, JErr (TypeError "Cannot read properties of null"), empty_object)])%list.
Proof.
  intros v url params callback p id b chunks w Hurl Hshift Hparse.
  rewrite (callback_receives_classification v url params callback p id b chunks w Hurl Hshift).
  unfold classify, retried. rewrite Hparse. reflexivity.
Qed.

(** X5.  A payload that has a member named [hasOwnProperty] is delivered as
    an error in the same way, with or without an [error] member: the member
    hides the method the test calls. *)
Lemma shadowed_test_is_delivered_as_error (v : verb) (url : string) (params callback p : arg)
    (id : nat) (b : list (jsval * jsval) -> jsval -> jsval -> option jsval)
    (chunks : list string) (props : list (string * json)) (w : World) :
  charAt0_is_slash url = true ->
  shift_arguments params callback = (p, AFunction (UserFn id b)) ->
  JSON_parse (accumulate chunks) = inl (JObj props) ->
  hasOwnProperty "hasOwnProperty" props = true ->
  calls (after JSON_parse (executor v url params callback) (map Data chunks ++ [End]) w) =
    (calls w ++ [(id, JErr (TypeError "json.hasOwnProperty is not a function"), empty_object)])%list.
Proof.
  intros Hurl Hshift Hparse Hshadow.
  rewrite (callback_receives_classification v url params callback p id b chunks w Hurl Hshift).
  unfold classify, retried. rewrite Hparse. simpl. rewrite Hshadow. reflexivity.
Qed.

(** The POST executor leaves the client as it found it: its headers are
    merged into a mapping of their own. *)
Lemma _post_leaves_client (url : string) (params callback : arg) (w : World) :
  this (snd (_post url params callback w)) = this w.
Proof.
  change (_post url params callback w) with (executor POST url params callback w).
  destruct (is_function (snd (shift_arguments params callback))) eqn:Hf.
  - destruct (charAt0_is_slash url) eqn:Hurl.
    + destruct (shift_arguments params callback) as [p [| |cb]] eqn:Hs; try discriminate.
      now rewrite (executor_valid POST url params callback p cb w Hurl Hs).
    + now rewrite (executor_invalid_url POST url params callback w Hurl Hf).
  - now rewrite (executor_invalid_callback POST url params callback w Hf).
Qed.

(** So does the GET executor of a client without access token. *)
Lemma _get_leaves_client_without_token (url : string) (params callback : arg) (w : World) :
  access_token (options (this w)) = None ->
  this (snd (_get url params callback w)) = this w.
Proof.
  intros Ht.
  change (_get url params callback w) with (executor GET url params callback w).
  destruct (is_function (snd (shift_arguments params callback))) eqn:Hf.
  - destruct (charAt0_is_slash url) eqn:Hurl.
    + destruct (shift_arguments params callback) as [p [| |cb]] eqn:Hs; try discriminate.
      rewrite (executor_valid GET url params callback p cb w Hurl Hs).
      simpl. unfold client_after. now rewrite Ht.
    + now rewrite (executor_invalid_url GET url params callback w Hurl Hf).
  - now rewrite (executor_invalid_callback GET url params callback w Hf).
Qed.

(** C2.  The claim has no call change the options of the client.  It fails
    for GET on a client with an access token: the headers of the request are
    the headers mapping of the client itself, and the assignment of
    [Authorization] on them is an assignment on the client. *)
Theorem C2_get_assigns_authorization_on_client :
  forall (url : string) (params callback p : arg) (cb : func) (token : string) (w : World),
    charAt0_is_slash url = true ->
    shift_arguments params callback = (p, AFunction cb) ->
    access_token (options (this w)) = Some token ->
    headers (options (this (snd (_get url params callback w)))) =
      set "Authorization" (bearer token) (headers (options (this w))) /\
    lookup "Authorization" (headers (options (this (snd (_get url params callback w))))) =
      Some (bearer token).
Proof.
  intros url params callback p cb token w Hurl Hshift Ht.
  change (_get url params callback w) with (executor GET url params callback w).
  rewrite (executor_valid GET url params callback p cb w Hurl Hshift).
  simpl. unfold client_after. rewrite Ht. simpl.
  split; [reflexivity | apply ObjFacts.lookup_set_same].
Qed.


(** A callback that returns from its first call is called once. *)
Lemma returning_callback_is_called_once (v : verb) (url : string) (params callback p : arg)
    (id : nat) (b : list (jsval * jsval) -> jsval -> jsval -> option jsval)
    (chunks : list string) (w : World) :
  charAt0_is_slash url = true ->
  shift_arguments params callback = (p, AFunction (UserFn id b)) ->
  b (own_calls id (calls w)) (fst (classify JSON_parse (accumulate chunks)))
    (snd (classify JSON_parse (accumulate chunks))) = None ->
  calls (after JSON_parse (executor v url params callback) (map Data chunks ++ [End]) w) =
    (calls w ++ [logged id (classify JSON_parse (accumulate chunks))])%list.
Proof.
  intros Hurl Hshift Hreturn.
  rewrite (callback_receives_classification v url params callback p id b chunks w Hurl Hshift).
  unfold retried. rewrite Hreturn.
  destruct (JSON_parse (accumulate chunks)) as [j|err]; [|reflexivity].
  destruct (has_own_error j); reflexivity.
Qed.

(** C4.  The claim has the callback called at most once in a response,
    whatever the callback does.  It fails for a callback that throws: the
    first call is made inside [try], so the exception lands in the [catch]
    clause, which calls the callback a second time. *)
Theorem C4_throwing_callback_is_called_twice :
  forall (v : verb) (url : string) (params callback p : arg) (id : nat)
    (b : list (jsval * jsval) -> jsval -> jsval -> option jsval)
    (chunks : list string) (j : json) (x : jsval) (w : World),
    charAt0_is_slash url = true ->
    shift_arguments params callback = (p, AFunction (UserFn id b)) ->
    JSON_parse (accumulate chunks) = inl j ->
    has_own_error j = Normal false ->
    b (own_calls id (calls w)) null (JV j) = Some x ->
    calls (after JSON_parse (executor v url params callback) (map Data chunks ++ [End]) w) =
      (calls w ++ [(id, null, JV j); (id, x, empty_object)])%list.
Proof.
  intros v url params callback p id b chunks j x w Hurl Hshift Hparse Hown Hthrow.
  rewrite (callback_receives_classification v url params callback p id b chunks w Hurl Hshift).
  unfold retried. rewrite (classify_no_error_member _ _ Hparse Hown).
  rewrite Hparse, Hown. simpl. rewrite Hthrow. reflexivity.
Qed.

(** C5.  A path that does not start with a slash makes [_get] and [_post]
    throw an invalid-argument failure before anything is done: the world is
    as it was, so no request was made.  The failure names the path when a
    callback was supplied and the callback otherwise.  A call without any
    function among its arguments throws the failure that names the
    callback, in the same way. *)
Theorem C5_invalid_arguments_throw_at_once :
  forall (v : verb) (url : string) (params callback : arg) (w : World),
    (charAt0_is_slash url = false ->
     exists e, executor v url params callback w = (Throw e, w) /\ invalid_argument e /\
       (is_function (snd (shift_arguments params callback)) = true -> e = INVALID_URL)) /\
    (is_function params = false -> is_function callback = false ->
     executor v url params callback w = (Throw INVALID_CALLBACK, w)).
Proof.
  intros v url params callback w. split.
  - intros Hurl.
    destruct (is_function (snd (shift_arguments params callback))) eqn:Hf.
    + exists INVALID_URL. split; [now apply executor_invalid_url|].
      split; [now left | reflexivity].
    + exists INVALID_CALLBACK. split; [now apply executor_invalid_callback|].
      split; [now right | discriminate].
  - intros Hp Hc. apply executor_invalid_callback.
    now rewrite (shift_arguments_callback _ _ Hp).
Qed.

(** C6.  With a caller's callback as completion, nothing is delivered while
    the call runs; when the accumulated body does not parse, the ['end']
    listener calls the callback once with the parse error and [{}]; when the
    response stream emits an error, the ['error'] listener calls the
    callback with that error and [{}]. *)
Theorem C6_parse_and_stream_errors_reach_callback :
  forall (v : verb) (url : string) (params callback p : arg) (id : nat)
    (b : list (jsval * jsval) -> jsval -> jsval -> option jsval)
    (chunks : list string) (w : World),
    charAt0_is_slash url = true ->
    shift_arguments params callback = (p, AFunction (UserFn id b)) ->
    calls (snd (executor v url params callback w)) = calls w /\
    (forall perr, JSON_parse (accumulate chunks) = inr perr ->
       calls (after JSON_parse (executor v url params callback) (map Data chunks ++ [End]) w) =
         (calls w ++ [(id, JErr perr, empty_object)])%list) /\
    (forall err,
       calls (after JSON_parse (executor v url params callback) (map Data chunks ++ [Error err]) w) =
         (calls w ++ [(id, JErr err, empty_object)])%list).
Proof.
  intros v url params callback p id b chunks w Hurl Hshift. repeat split.
  - now rewrite (executor_valid v url params callback p _ w Hurl Hshift).
  - intros perr Hparse.
    rewrite (callback_receives_classification v url params callback p id b chunks w Hurl Hshift).
    unfold classify, retried. rewrite Hparse. reflexivity.
  - intros err.
    rewrite (after_valid JSON_parse v url params callback p _ chunks (Error err) w Hurl Hshift).
    apply emit_issued_error_user.
Qed.

(** C7, as amended.  A call of [get] or [post] that passes no callback, its
    parameters absent or an object, set beside the same call with a callback
    as third argument.  When the call with
    callback throws an invalid-argument failure, so does the call without.
    Otherwise the call without callback returns a new deferred value, and
    after any events of the response that value is in the state the calls
    received by the callback settle it to: pending when there was none,
    resolved with the value of the first call when its error is [null],
    rejected with the error of the first call otherwise. *)
Theorem C7_deferred_value_matches_callback_path :
  forall (v : verb) (url : string) (params : arg) (id : nat)
    (b : list (jsval * jsval) -> jsval -> jsval -> option jsval)
    (evs : list event) (w : World),
    is_function params = false ->
    match fst (public v url params (AFunction (UserFn id b)) w) with
    | Throw e => fst (public v url params AUndefined w) = Throw e
    | Normal _ =>
        fst (public v url params AUndefined w) = Normal (RDeferred (List.length (deferreds w))) /\
        nth_error (deferreds (after JSON_parse (public v url params AUndefined) evs w))
                  (List.length (deferreds w)) =
          Some (settlement
                  (received_since (List.length (calls w))
                     (after JSON_parse (public v url params (AFunction (UserFn id b))) evs w)))
    end.
Proof.
  intros v url params id b evs w Hp.
  destruct (charAt0_is_slash url) eqn:Hurl.
  - pose proof (shift_arguments_callback params
                  (AFunction (Settle (List.length (deferreds w)))) Hp) as Hshift.
    unfold after.
    rewrite (public_callback_valid v url params (UserFn id b) w Hurl Hp).
    rewrite (public_deferred_valid v url params AUndefined params _ w Hurl eq_refl Hshift).
    cbn [fst]. split; [reflexivity|].
    destruct (deferred_follows_callback JSON_parse (List.length (listeners w))
                (List.length (deferreds w)) id b (calls w) evs EmptyString []
                (issued v url params (UserFn id b) EmptyString w)
                (issued v url params (Settle (List.length (deferreds w))) EmptyString
                   (with_deferreds (deferreds w ++ [Pending]) w)))
      as (extra & Hcalls & Hd).
    + cbn [listeners issued]. apply nth_error_last.
    + cbn [listeners issued with_deferreds]. apply nth_error_last.
    + cbn [calls issued map]. now rewrite app_nil_r.
    + cbn [deferreds issued with_deferreds]. apply nth_error_last.
    + rewrite Hd. now rewrite (received_since_base _ _ _ _ Hcalls).
  - rewrite public_callback, (public_deferred v url params AUndefined eq_refl).
    unfold bind, new_deferred.
    rewrite !executor_invalid_url;
      try exact Hurl; try (now rewrite (shift_arguments_callback _ _ Hp)).
    reflexivity.
Qed.

End Claims.


(** C9, as amended.  A valid call of [_post] makes one POST request, to the
    host of the client, and ends it.  The encoded parameters are written as
    its body and are no part of its path; the path is the encoded url,
    followed by [?source=] and the encoded app id when the client has one,
    which the body never holds.  The headers sent are the client's merged
    over [Content-Length], computed as the length of the encoded body, with
    [Authorization] set when the client has an access token: the request
    carries the computed length as [Content-Length] when the headers of the
    client do not name that header, and the value the client's headers give
    it when they do. *)
Theorem C9_post_request_body_and_headers :
  forall (url : string) (params callback p : arg) (cb : func) (w : World),
    charAt0_is_slash url = true ->
    shift_arguments params callback = (p, AFunction cb) ->
    let o := options (this w) in
    exists r,
      sent (snd (_post url params callback w)) = (sent w ++ [r])%list /\
      r_method r = "POST" /\
      r_ended r = true /\
      r_host r = rest_base o /\
      r_body r = Querystring.stringify (enumerable p) /\
      r_path r =
        match app_id o with
        | Some id => encodeURI url ++ "?" ++ Querystring.stringify [("source", id)]
        | None => encodeURI url
        end /\
      r_headers r =
        with_authorization o
          (Utils.merge [("Content-Length", HNum (String.length (r_body r)))] (headers o)) /\
      (lookup "Content-Length" (headers o) = None ->
       lookup "Content-Length" (r_headers r) = Some (HNum (String.length (r_body r)))) /\
      (forall configured, NoDup (map fst (headers o)) ->
         lookup "Content-Length" (headers o) = Some configured ->
         lookup "Content-Length" (r_headers r) = Some configured).
Proof.
  intros url params callback p cb w Hurl Hshift o.
  change (_post url params callback w) with (executor POST url params callback w).
  rewrite (executor_valid POST url params callback p cb w Hurl Hshift).
  exists (post_request o url p). cbn [snd sent issued request_of].
  split; [reflexivity|]. split; [reflexivity|]. split; [reflexivity|].
  split; [reflexivity|].
  split; [reflexivity|]. split; [cbn [r_path post_request]; now destruct (app_id o)|].
  split; [reflexivity|].
  assert (Hauth : forall hs,
            lookup "Content-Length" (with_authorization o hs) = lookup "Content-Length" hs).
  { intros hs. unfold with_authorization. destruct (access_token o); [|reflexivity].
    apply ObjFacts.lookup_set_other. discriminate. }
  split; [|intros configured Hnd Hc; cbn [r_headers r_body post_request];
           rewrite Hauth; now apply ObjFacts.lookup_merge_present].
  intros Hnone. cbn [r_headers r_body post_request]. unfold with_authorization.
  assert (Hcl : lookup "Content-Length"
                  (Utils.merge
                     [("Content-Length",
                       HNum (String.length (Querystring.stringify (enumerable p))))]
                     (headers o)) =
                Some (HNum (String.length (Querystring.stringify (enumerable p))))).
  { now rewrite (ObjFacts.lookup_merge_absent _ _ _ Hnone). }
  destruct (access_token o); [|exact Hcl].
  rewrite ObjFacts.lookup_set_other; [exact Hcl | discriminate].
Qed.

(** C10.  [calendar] returns the client instance whatever it is given: it
    makes the call of [get] that the other methods make, and drops its value,
    which is a deferred value when the caller passed no callback.  [user],
    [subject], [ep], [collectionByUser], [search] and the other methods
    return the value of the executor, a deferred value in that case. *)
Theorem C10_calendar_returns_client_instance :
  forall (callback : arg) (w : World),
    fst (calendar callback w) = Normal RThis /\
    snd (calendar callback w) = snd (get "/calendar" callback AUndefined w) /\
    fst (get "/calendar" AUndefined AUndefined w) = Normal (RDeferred (List.length (deferreds w))) /\
    (forall name id status params,
       let d := Normal (RDeferred (List.length (deferreds w))) in
       user name callback w = get ("/user/" ++ name) callback AUndefined w /\
       ep id callback w = get ("/subject/" ++ id ++ "/ep") callback AUndefined w /\
       subject id params callback w = get ("/subject/" ++ id) params callback w /\
       collectionByUser name params callback w =
         get ("/user/" ++ name ++ "/collection") params callback w /\
       search name params callback w = get ("/search/subject/" ++ name) params callback w /\
       collectionBySubject id params callback w = get ("/collection/" ++ id) params callback w /\
       progress name params callback w = get ("/user/" ++ name ++ "/progress") params callback w /\
       auth params callback w = post "/auth" params callback w /\
       createCollection id params callback w =
         post ("/collection/" ++ id ++ "/create") params callback w /\
       updateEp id status params callback w =
         post ("/ep/" ++ id ++ "/status/" ++ status) params callback w /\
       updateEps id params callback w =
         post ("/subject/" ++ id ++ "/update/watched_eps") params callback w /\
       fst (user name AUndefined w) = d /\
       fst (ep id AUndefined w) = d /\
       fst (subject id AUndefined AUndefined w) = d /\
       fst (collectionByUser name AUndefined AUndefined w) = d /\
       fst (search name AUndefined AUndefined w) = d).
Proof.
  intros callback w.
  assert (Hget : forall url p, charAt0_is_slash url = true ->
            fst (get url p AUndefined w) = Normal (RDeferred (List.length (deferreds w)))).
  { intros url p Hurl.
    destruct (shift_arguments p (AFunction (Settle (List.length (deferreds w)))))
      as [p' c'] eqn:Hs.
    assert (Hc : exists cb, c' = AFunction cb).
    { unfold shift_arguments in Hs. destruct p; simpl in Hs; inversion Hs; eauto. }
    destruct Hc as [cb ->].
    change (get url p AUndefined w) with (public GET url p AUndefined w).
    now rewrite (public_deferred_valid GET url p AUndefined p' cb w Hurl eq_refl Hs). }
  split.
  - unfold calendar, bind. pose proof (Hget "/calendar" callback eq_refl) as H.
    destruct (get "/calendar" callback AUndefined w) as [[r|e] w']; simpl in H;
      [reflexivity | discriminate].
  - split.
    + unfold calendar, bind. pose proof (Hget "/calendar" callback eq_refl) as H.
      destruct (get "/calendar" callback AUndefined w) as [[r|e] w']; simpl in H;
        [reflexivity | discriminate].
    + split; [now apply Hget|].
      intros name id status params d.
      repeat (split; [reflexivity|]).
      unfold user, ep, subject, collectionByUser, search.
      repeat split; apply Hget; reflexivity.
Qed.

(** X16.  A callback passed in the parameters position is the completion
    callback of the executor, which drops the completion function of the
    adapter: the call returns a deferred value that stays pending whatever
    the response. *)
Lemma callback_as_second_argument_leaves_deferred_pending
    (JSON_parse : string -> json + js_error) (v : verb) (url : string) (id : nat)
    (b : list (jsval * jsval) -> jsval -> jsval -> option jsval)
    (evs : list event) (w : World) :
  charAt0_is_slash url = true ->
  fst (public v url (AFunction (UserFn id b)) AUndefined w) =
    Normal (RDeferred (List.length (deferreds w))) /\
  nth_error (deferreds (after JSON_parse (public v url (AFunction (UserFn id b)) AUndefined) evs w))
            (List.length (deferreds w)) = Some Pending.
Proof.
  intros Hurl. unfold after.
  rewrite (public_deferred_valid v url (AFunction (UserFn id b)) AUndefined (AObject [])
             (UserFn id b) w Hurl eq_refl eq_refl).
  split; [reflexivity|]. cbn [listeners with_deferreds].
  set (w1 := issued v url (AObject []) (UserFn id b) EmptyString
               (with_deferreds (deferreds w ++ [Pending]) w)).
  assert (Hl : nth_error (listeners w1) (List.length (listeners w)) =
               Some {| l_callback := UserFn id b; l_data := EmptyString |})
    by apply nth_error_last.
  assert (Hd : nth_error (deferreds w1) (List.length (deferreds w)) = Some Pending)
    by apply nth_error_last.
  clearbody w1. revert Hl Hd. generalize EmptyString as data. revert w1.
  induction evs as [|ev evs IH]; intros w1 data Hl Hd; [exact Hd|].
  destruct (emit_user JSON_parse _ id b data ev w1 Hl)
    as (r & w' & rest & E & _ & _ & Hd' & Hl' & _).
  simpl. unfold bind. rewrite E. destruct r as [[]|e].
  - apply (IH w' _ Hl'). now rewrite Hd'.
  - simpl. now rewrite Hd'.
Qed.

(** ** The claims at concrete inputs *)

Lemma C1_null_body_on_default_client :
  charAt0_is_slash "/calendar" = true /\
  shift_arguments AUndefined (AFunction quiet) = (AUndefined, AFunction quiet) /\
  JSON_parse_sample (accumulate ["nu"; "ll"]) = inl JNull /\
  calls (after JSON_parse_sample (executor GET "/calendar" AUndefined (AFunction quiet))
           (map Data ["nu"; "ll"] ++ [End]) (boot (Bangumi no_options))) =
    [(0, JErr (TypeError "Cannot read properties of null"), empty_object)].
Proof.
  refine (conj eq_refl (conj eq_refl (conj eq_refl _))).
  exact (C1_null_payload_is_delivered_as_error JSON_parse_sample GET "/calendar"
           AUndefined (AFunction quiet) AUndefined 0 (fun _ _ _ => None) ["nu"; "ll"]
           (boot (Bangumi no_options)) eq_refl eq_refl eq_refl).
Defined.

Lemma C2_calendar_with_token :
  lookup "Authorization" (headers (options (Bangumi (with_token "tok")))) = None /\
  charAt0_is_slash "/calendar" = true /\
  shift_arguments AUndefined (AFunction quiet) = (AUndefined, AFunction quiet) /\
  access_token (options (this (boot (Bangumi (with_token "tok"))))) = Some "tok" /\
  headers (options (this (snd (_get "/calendar" AUndefined (AFunction quiet)
                                 (boot (Bangumi (with_token "tok"))))))) =
    set "Authorization" (bearer "tok") (headers (options (Bangumi (with_token "tok")))) /\
  lookup "Authorization"
    (headers (options (this (snd (_get "/calendar" AUndefined (AFunction quiet)
                                    (boot (Bangumi (with_token "tok")))))))) =
    Some (bearer "tok").
Proof.
  refine (conj eq_refl (conj eq_refl (conj eq_refl (conj eq_refl _)))).
  exact (C2_get_assigns_authorization_on_client "/calendar" AUndefined (AFunction quiet)
           AUndefined quiet "tok" (boot (Bangumi (with_token "tok"))) eq_refl eq_refl eq_refl).
Defined.



Lemma C4_empty_object_to_throwing_callback :
  charAt0_is_slash "/calendar" = true /\
  shift_arguments AUndefined (AFunction throws_once) = (AUndefined, AFunction throws_once) /\
  JSON_parse_sample (accumulate ["{}"]) = inl (JObj []) /\
  has_own_error (JObj []) = Normal false /\
  calls (after JSON_parse_sample (executor GET "/calendar" AUndefined (AFunction throws_once))
           (map Data ["{}"] ++ [End]) (boot (Bangumi no_options))) =
    [(0, null, JV (JObj []));
     (0, JErr (TypeError "Cannot read properties of undefined"), empty_object)].
Proof.
  refine (conj eq_refl (conj eq_refl (conj eq_refl (conj eq_refl _)))).
  exact (C4_throwing_callback_is_called_twice JSON_parse_sample GET "/calendar"
           AUndefined (AFunction throws_once) AUndefined 0 _ ["{}"] (JObj [])
           (JErr (TypeError "Cannot read properties of undefined"))
           (boot (Bangumi no_options)) eq_refl eq_refl eq_refl eq_refl eq_refl).
Defined.

Lemma C5_path_without_slash :
  charAt0_is_slash "calendar" = false /\
  is_function AUndefined = false /\
  (exists e,
     executor GET "calendar" (AObject []) (AFunction quiet) (boot (Bangumi no_options)) =
       (Throw e, boot (Bangumi no_options)) /\ e = INVALID_URL) /\
  executor POST "/auth" AUndefined AUndefined (boot (Bangumi no_options)) =
    (Throw INVALID_CALLBACK, boot (Bangumi no_options)).
Proof.
  refine (conj eq_refl (conj eq_refl (conj _ _))).
  - destruct (proj1 (C5_invalid_arguments_throw_at_once GET "calendar" (AObject [])
                       (AFunction quiet) (boot (Bangumi no_options))) eq_refl)
      as (e & Hthrow & _ & He).
    exists e. exact (conj Hthrow (He eq_refl)).
  - exact (proj2 (C5_invalid_arguments_throw_at_once POST "/auth" AUndefined AUndefined
                    (boot (Bangumi no_options))) eq_refl eq_refl).
Defined.

Lemma C6_html_body_and_socket_error :
  charAt0_is_slash "/calendar" = true /\
  shift_arguments AUndefined (AFunction quiet) = (AUndefined, AFunction quiet) /\
  JSON_parse_sample (accumulate ["<html"; ">"]) =
    inr (SyntaxError "Unexpected token < in JSON at position 0") /\
  calls (after JSON_parse_sample (executor GET "/calendar" AUndefined (AFunction quiet))
           (map Data ["<html"; ">"] ++ [End]) (boot (Bangumi no_options))) =
    [(0, JErr (SyntaxError "Unexpected token < in JSON at position 0"), empty_object)] /\
  calls (after JSON_parse_sample (executor GET "/calendar" AUndefined (AFunction quiet))
           (map Data ["<html"; ">"] ++ [Error (SocketError "read ECONNRESET")])
           (boot (Bangumi no_options))) =
    [(0, JErr (SocketError "read ECONNRESET"), empty_object)].
Proof.
  refine (conj eq_refl (conj eq_refl (conj eq_refl _))).
  pose (H := C6_parse_and_stream_errors_reach_callback JSON_parse_sample GET "/calendar"
               AUndefined (AFunction quiet) AUndefined 0 (fun _ _ _ => None) ["<html"; ">"]
               (boot (Bangumi no_options)) eq_refl eq_refl).
  exact (conj (proj1 (proj2 H) _ eq_refl) (proj2 (proj2 H) _)).
Defined.

Lemma C7_calendar_without_callback :
  is_function AUndefined = false /\
  fst (public GET "/calendar" AUndefined AUndefined (boot (Bangumi no_options))) =
    Normal (RDeferred 0) /\
  nth_error
    (deferreds (after JSON_parse_sample (public GET "/calendar" AUndefined AUndefined)
                  [Data "{}"; End] (boot (Bangumi no_options)))) 0 =
    Some (Resolved (JV (JObj []))).
Proof.
  refine (conj eq_refl _).
  exact (C7_deferred_value_matches_callback_path JSON_parse_sample GET "/calendar"
           AUndefined 0 (fun _ _ _ => None) [Data "{}"; End] (boot (Bangumi no_options))
           eq_refl).
Defined.


Lemma C9_create_collection_with_app_id :
  charAt0_is_slash "/collection/123/create" = true /\
  shift_arguments (AObject [("status", "wish")]) (AFunction quiet) =
    (AObject [("status", "wish")], AFunction quiet) /\
  lookup "Content-Length" (headers (options (Bangumi (with_app_id "bgm123")))) = None /\
  exists r,
    sent (snd (_post "/collection/123/create" (AObject [("status", "wish")]) (AFunction quiet)
                 (boot (Bangumi (with_app_id "bgm123"))))) = [r] /\
    r_body r = "status=wish" /\
    r_path r = "/collection/123/create?source=bgm123" /\
    lookup "Content-Length" (r_headers r) = Some (HNum 11).
Proof.
  refine (conj eq_refl (conj eq_refl (conj eq_refl _))).
  destruct (C9_post_request_body_and_headers "/collection/123/create"
              (AObject [("status", "wish")]) (AFunction quiet)
              (AObject [("status", "wish")]) quiet
              (boot (Bangumi (with_app_id "bgm123"))) eq_refl eq_refl)
    as (r & Hsent & _ & _ & _ & Hbody & Hpath & _ & Hlength & _).
  exists r. refine (conj Hsent (conj Hbody (conj Hpath _))).
  specialize (Hlength eq_refl). rewrite Hbody in Hlength. exact Hlength.
Defined.

(** C9, as stated: a client configured with a [Content-Length] header of its
    own sends that header with every POST request, where the claim has the
    length of the encoded body sent: here 5 for a body of 11 characters. *)
Lemma C9_configured_content_length_is_sent :
  exists r,
    sent (snd (_post "/collection/123/create" (AObject [("status", "wish")]) (AFunction quiet)
                 (boot (Bangumi (with_configured_headers [("Content-Length", HNum 5)]))))) =
      [r] /\
    r_body r = "status=wish" /\
    String.length (r_body r) = 11 /\
    lookup "Content-Length" (r_headers r) = Some (HNum 5).
Proof. eexists. repeat split. Qed.

(** C7, as stated.  When the response emits ['error'] after ['end'], the
    callback of the call with callback receives a second call, with a
    non-null error, while the deferred value of the call without callback
    was resolved by the first and stays resolved.  And a call without
    callback whose path has no leading slash throws and returns no deferred
    value. *)
Lemma C7_error_after_end_and_invalid_path :
  received_since 0
    (after JSON_parse_sample (public GET "/calendar" AUndefined (AFunction quiet))
       [Data "{}"; End; Error (SocketError "read ECONNRESET")] (boot (Bangumi no_options))) =
    [(null, JV (JObj [])); (JErr (SocketError "read ECONNRESET"), empty_object)] /\
  nth_error
    (deferreds (after JSON_parse_sample (public GET "/calendar" AUndefined AUndefined)
                  [Data "{}"; End; Error (SocketError "read ECONNRESET")]
                  (boot (Bangumi no_options)))) 0 =
    Some (Resolved (JV (JObj []))) /\
  fst (public GET "calendar" AUndefined AUndefined (boot (Bangumi no_options))) =
    Throw INVALID_URL.
Proof. repeat split. Qed.

(** * Further properties of the listeners *)

Section Listeners.

Variable JSON_parse : string -> json + js_error.

(** One event heard by a caller's callback, call by call. *)
Lemma emit_user_exact (i id : nat) (b : list (jsval * jsval) -> jsval -> jsval -> option jsval)
    (data : string) (ev : event) (w : World) :
  nth_error (listeners w) i = Some {| l_callback := UserFn id b; l_data := data |} ->
  exists r w',
    emit JSON_parse i ev w = (r, w') /\
    nth_error (listeners w') i =
      Some {| l_callback := UserFn id b; l_data := heard data ev |} /\
    calls w' =
      (calls w ++ map (logged id)
         match ev with
         | Data _ => []
         | End => classify JSON_parse data ::
                  retried JSON_parse b (own_calls id (calls w)) data
         | Error err => [(JErr err, empty_object)]
         end)%list /\
    ((forall earlier e v, b earlier e v = None) -> r = Normal tt).
Proof.
  intros Hl. unfold emit. rewrite Hl. destruct ev as [chunk| |err].
  - eexists _, _. split; [reflexivity|]. simpl. rewrite app_nil_r.
    rewrite (nth_error_update_nth _ _ _ _ Hl). repeat split.
  - pose proof (on_end_user JSON_parse id b data w) as Hcalls.
    destruct (on_end JSON_parse _ w) as [r w'] eqn:E. simpl in Hcalls. subst w'.
    exists r, (with_calls
                 (calls w ++
                  map (logged id)
                    (classify JSON_parse data ::
                     retried JSON_parse b (own_calls id (calls w)) data)) w).
    split; [reflexivity|]. split; [exact Hl|]. split; [reflexivity|].
    intros Hb. revert E.
    unfold on_end, try_catch, bind, lift, throw, invoke. cbn [l_callback l_data].
    destruct (JSON_parse data) as [j|perr].
    + destruct (has_own_error j) as [[|]|x]; rewrite ?Hb; intros E; now inversion E.
    + rewrite Hb. intros E; now inversion E.
  - unfold on_error. cbn [l_callback]. rewrite invoke_user.
    eexists _, _. split; [reflexivity|]. split; [exact Hl|]. split; [reflexivity|].
    intros Hb. now rewrite Hb.
Qed.

Lemma retried_of_returning (b : list (jsval * jsval) -> jsval -> jsval -> option jsval)
    (earlier : list (jsval * jsval)) (data : string) :
  (forall h e v, b h e v = None) -> retried JSON_parse b earlier data = [].
Proof.
  intros Hb. unfold retried. rewrite Hb.
  destruct (JSON_parse data) as [j|perr]; [|reflexivity].
  now destruct (has_own_error j).
Qed.

(** X1.  While only chunks of the body arrive nothing is completed: after a
    valid call and any number of ['data'] events the world is the one the
    call left, with the chunks appended to each other in the listener; no
    callback was called and no deferred value settled. *)
Theorem X1_data_events_only_accumulate :
  forall (v : verb) (url : string) (params callback p : arg) (cb : func)
    (chunks : list string) (w : World),
    charAt0_is_slash url = true ->
    shift_arguments params callback = (p, AFunction cb) ->
    after JSON_parse (executor v url params callback) (map Data chunks) w =
      issued v url p cb (accumulate chunks) w /\
    calls (after JSON_parse (executor v url params callback) (map Data chunks) w) = calls w /\
    deferreds (after JSON_parse (executor v url params callback) (map Data chunks) w) =
      deferreds w.
Proof.
  intros v url params callback p cb chunks w Hurl Hshift.
  assert (H : after JSON_parse (executor v url params callback) (map Data chunks) w =
              issued v url p cb (accumulate chunks) w).
  { unfold after. rewrite (executor_valid v url params callback p cb w Hurl Hshift).
    rewrite <- (app_nil_r (map Data chunks)).
    now rewrite emit_all_issued_data. }
  rewrite H. repeat split.
Qed.

Lemma emit_all_returning (i id : nat)
    (b : list (jsval * jsval) -> jsval -> jsval -> option jsval) (evs : list event) :
  (forall h e v, b h e v = None) ->
  forall (data : string) (w : World),
    nth_error (listeners w) i = Some {| l_callback := UserFn id b; l_data := data |} ->
    List.length (calls (snd (emit_all JSON_parse i evs w))) =
      List.length (calls w) + List.length (filter terminal evs).
Proof.
  intros Hb. induction evs as [|ev evs IH]; intros data w Hl.
  - simpl. lia.
  - destruct (emit_user_exact i id b data ev w Hl) as (r & w' & E & Hl' & Hcalls & Hr).
    simpl. unfold bind. rewrite E, (Hr Hb).
    rewrite (IH _ _ Hl'), Hcalls, length_app, length_map.
    destruct ev as [chunk| |err]; simpl;
      rewrite ?(retried_of_returning b _ data Hb); simpl; lia.
Qed.

(** X2.  A callback that never throws is called once for every ['end'] and
    every ['error'] event of the response, and at no other time: nothing in
    the listeners remembers that the call was completed before. *)
Theorem X2_returning_callback_called_once_per_closing_event :
  forall (v : verb) (url : string) (params callback p : arg) (id : nat)
    (b : list (jsval * jsval) -> jsval -> jsval -> option jsval)
    (evs : list event) (w : World),
    charAt0_is_slash url = true ->
    shift_arguments params callback = (p, AFunction (UserFn id b)) ->
    (forall earlier e v, b earlier e v = None) ->
    List.length (calls (after JSON_parse (executor v url params callback) evs w)) =
      List.length (calls w) + List.length (filter terminal evs).
Proof.
  intros v url params callback p id b evs w Hurl Hshift Hb.
  unfold after. rewrite (executor_valid v url params callback p _ w Hurl Hshift).
  rewrite (emit_all_returning _ id b evs Hb EmptyString).
  - reflexivity.
  - apply nth_error_last.
Qed.

Lemma classify_error_or_empty (data : string) :
  is_null (fst (classify JSON_parse data)) = true \/
  snd (classify JSON_parse data) = empty_object.
Proof.
  unfold classify. destruct (JSON_parse data) as [j|perr]; [|now right].
  destruct (has_own_error j) as [[|]|x]; [now right | now left | now right].
Qed.

Lemma retried_empty_result (b : list (jsval * jsval) -> jsval -> jsval -> option jsval)
    (earlier : list (jsval * jsval)) (data : string) :
  Forall (fun a => is_null (fst a) = true \/ snd a = empty_object)
    (retried JSON_parse b earlier data).
Proof.
  unfold retried. destruct (JSON_parse data) as [j|perr]; [|constructor].
  destruct (has_own_error j); [|constructor].
  destruct (b earlier _ _); [constructor; [now right | constructor] | constructor].
Qed.

Lemma emit_all_error_or_empty (i id : nat)
    (b : list (jsval * jsval) -> jsval -> jsval -> option jsval) (evs : list event) :
  forall (data : string) (w : World),
    nth_error (listeners w) i = Some {| l_callback := UserFn id b; l_data := data |} ->
    exists news,
      calls (snd (emit_all JSON_parse i evs w)) = (calls w ++ map (logged id) news)%list /\
      Forall (fun a => is_null (fst a) = true \/ snd a = empty_object) news.
Proof.
  induction evs as [|ev evs IH]; intros data w Hl.
  - exists []. simpl. now rewrite app_nil_r.
  - destruct (emit_user_exact i id b data ev w Hl) as (r & w' & E & Hl' & Hcalls & _).
    set (new := match ev with
                | Data _ => []
                | End => classify JSON_parse data ::
                         retried JSON_parse b (own_calls id (calls w)) data
                | Error err => [(JErr err, empty_object)]
                end) in *.
    assert (Hnew : Forall (fun a => is_null (fst a) = true \/ snd a = empty_object) new).
    { subst new. destruct ev as [chunk| |err].
      - constructor.
      - constructor; [apply classify_error_or_empty | apply retried_empty_result].
      - constructor; [now right | constructor]. }
    simpl. unfold bind. rewrite E. destruct r as [[]|x].
    + destruct (IH _ _ Hl') as (news & Hn & Hall).
      exists (new ++ news)%list. split.
      * now rewrite Hn, Hcalls, map_app, app_assoc.
      * now apply Forall_app.
    + exists new. now split.
Qed.

(** X3.  In every call the listeners make, whatever the events and whatever
    the callback does, the error argument is [null] or the result argument
    is [{}]: a caller is never handed an error together with a payload. *)
Theorem X3_error_comes_with_empty_result :
  forall (v : verb) (url : string) (params callback p : arg) (id : nat)
    (b : list (jsval * jsval) -> jsval -> jsval -> option jsval)
    (evs : list event) (w : World),
    charAt0_is_slash url = true ->
    shift_arguments params callback = (p, AFunction (UserFn id b)) ->
    Forall (fun a => is_null (fst a) = true \/ snd a = empty_object)
      (received_since (List.length (calls w))
         (after JSON_parse (executor v url params callback) evs w)).
Proof.
  intros v url params callback p id b evs w Hurl Hshift.
  unfold after. rewrite (executor_valid v url params callback p _ w Hurl Hshift).
  destruct (emit_all_error_or_empty (List.length (listeners w)) id b evs EmptyString
              (issued v url p (UserFn id b) EmptyString w)) as (news & Hn & Hall).
  - apply nth_error_last.
  - now rewrite (received_since_base (calls w) id news _ Hn).
Qed.

(** X4.  At the end of a response the first call reports success, a [null]
    error, exactly when the accumulated body parses to a value on which the
    test for an [error] member can be made and finds none; the result is
    then that value. *)
Theorem X4_success_exactly_for_tested_payloads :
  forall (v : verb) (url : string) (params callback p : arg) (id : nat)
    (b : list (jsval * jsval) -> jsval -> jsval -> option jsval)
    (chunks : list string) (w : World),
    charAt0_is_slash url = true ->
    shift_arguments params callback = (p, AFunction (UserFn id b)) ->
    exists e r rest,
      received_since (List.length (calls w))
        (after JSON_parse (executor v url params callback) (map Data chunks ++ [End]) w) =
        (e, r) :: rest /\
      (is_null e = true <->
       exists j, JSON_parse (accumulate chunks) = inl j /\
                 has_own_error j = Normal false /\ r = JV j).
Proof.
  intros v url params callback p id b chunks w Hurl Hshift.
  pose proof (callback_receives_classification JSON_parse v url params callback p id b
                chunks w Hurl Hshift) as Hcalls.
  rewrite (received_since_base (calls w) id _ _ Hcalls).
  exists (fst (classify JSON_parse (accumulate chunks))),
         (snd (classify JSON_parse (accumulate chunks))),
         (retried JSON_parse b (own_calls id (calls w)) (accumulate chunks)).
  split; [now destruct (classify JSON_parse (accumulate chunks))|].
  unfold classify. destruct (JSON_parse (accumulate chunks)) as [j|perr].
  - destruct (has_own_error j) as [[|]|x] eqn:Hown; cbn [fst snd].
    + assert (Hj : is_null (JV j) = false).
      { destruct j; simpl in *; try reflexivity; discriminate. }
      rewrite Hj. split; [discriminate|].
      intros (j0 & Hj0 & Hown0 & _). inversion Hj0; subst j0.
      rewrite Hown in Hown0. discriminate.
    + split; [intros _; exists j; auto | reflexivity].
    + assert (Hx : is_null x = false).
      { destruct j as [|bb|f|s|items|props]; simpl in Hown; try discriminate.
        - now inversion Hown.
        - destruct (hasOwnProperty "hasOwnProperty" props); [now inversion Hown | discriminate]. }
      rewrite Hx. split; [discriminate|].
      intros (j0 & Hj0 & Hown0 & _). inversion Hj0; subst j0.
      rewrite Hown in Hown0. discriminate.
  - split; [discriminate | intros (j & Hj & _); discriminate].
Qed.

End Listeners.

(** * Further properties of text and objects *)

Lemma append_empty_r (s : string) : s ++ EmptyString = s.
Proof. induction s as [|c s IH]; simpl; [reflexivity | now rewrite IH]. Qed.

Lemma append_assoc (a b c : string) : (a ++ b) ++ c = a ++ (b ++ c).
Proof. induction a as [|x a IH]; simpl; [reflexivity | now rewrite IH]. Qed.

(** The text in the listener is the concatenation of the chunks. *)
Lemma accumulate_from (chunks : list string) (data : string) :
  fold_left append chunks data = data ++ String.concat EmptyString chunks.
Proof.
  revert data. induction chunks as [|c chunks IH]; intros data.
  - simpl. now rewrite append_empty_r.
  - cbn [fold_left]. rewrite IH. rewrite append_assoc.
    destruct chunks as [|c' chunks]; [simpl; now rewrite append_empty_r | reflexivity].
Qed.

Lemma escape_with_app (keep : ascii -> bool) (a b : string) :
  escape_with keep (a ++ b) = escape_with keep a ++ escape_with keep b.
Proof.
  induction a as [|c a IH]; simpl; [reflexivity|].
  now rewrite IH, append_assoc.
Qed.

Lemma every_char_app (f : ascii -> bool) (a b : string) :
  every_char f (a ++ b) = every_char f a && every_char f b.
Proof.
  induction a as [|c a IH]; simpl; [reflexivity|].
  now rewrite IH, andb_assoc.
Qed.

Lemma every_char_weaken (f g : ascii -> bool) (s : string) :
  (forall c, f c = true -> g c = true) -> every_char f s = true -> every_char g s = true.
Proof.
  intros Hfg. induction s as [|c s IH]; simpl; [reflexivity|].
  intros H. apply andb_true_iff in H. destruct H as [Hc Hs].
  now rewrite (Hfg c Hc), IH.
Qed.

Lemma every_char_excludes (f : ascii -> bool) (c : ascii) (s : string) :
  f c = false -> every_char f s = true -> str_mem c s = false.
Proof.
  intros Hc. induction s as [|c' s IH]; simpl; [reflexivity|].
  intros H. apply andb_true_iff in H. destruct H as [Hc' Hs].
  rewrite (IH Hs), orb_false_r.
  destruct (Ascii.eqb c c') eqn:E; [|reflexivity].
  apply Ascii.eqb_eq in E. subst c'. congruence.
Qed.

(** An escape is a percent sign and two digits or capital letters. *)
Lemma percent_shape (c : ascii) :
  exists h l,
    percent c = String "%" (String h (String l EmptyString)) /\
    is_alnum h = true /\ is_alnum l = true.
Proof.
  destruct c as [[|] [|] [|] [|] [|] [|] [|] [|]];
    eexists _, _; (split; [reflexivity | split; reflexivity]).
Qed.

Lemma escape_with_alphabet (keep : ascii -> bool) (s : string) :
  (forall c, is_alnum c = true -> keep c = true) ->
  every_char (fun c => keep c || Ascii.eqb c "%") (escape_with keep s) = true.
Proof.
  intros Hkeep. induction s as [|c s IH]; simpl; [reflexivity|].
  rewrite every_char_app, IH, andb_true_r.
  destruct (keep c) eqn:E.
  - simpl. now rewrite E.
  - destruct (percent_shape c) as (h & l & -> & Hh & Hl).
    simpl. rewrite (Hkeep h Hh), (Hkeep l Hl). simpl.
    now rewrite orb_true_r.
Qed.

Lemma prefix_append (s t : string) : String.prefix s (s ++ t) = true.
Proof.
  induction s as [|c s IH]; simpl; [now destruct t|].
  destruct (ascii_dec c c) as [_|Hne]; [exact IH | contradiction].
Qed.

Lemma nth_error_update_nth_other {A : Type} (f : A -> A) (l : list A) (i j : nat) :
  i <> j -> nth_error (update_nth i f l) j = nth_error l j.
Proof.
  revert i j. induction l as [|x l IH]; intros [|i] [|j] Hne; simpl; try reflexivity.
  - contradiction.
  - apply IH. congruence.
Qed.

Lemma replace_same_value {V : Type} (k : string) (v : V) (o : obj V) :
  lookup k o = Some v -> replace k v o = o.
Proof.
  induction o as [|[k' v'] o IH]; simpl; [reflexivity|].
  destruct (String.eqb k k') eqn:E.
  - intros H. now inversion H.
  - intros H. now rewrite (IH H).
Qed.

(** Assigning a member the value it was just assigned changes nothing. *)
Lemma set_twice {V : Type} (k : string) (v : V) (o : obj V) :
  set k v (set k v o) = set k v o.
Proof.
  pose proof (ObjFacts.lookup_set_same k v o) as H.
  unfold set at 1. unfold hasOwnProperty. rewrite H.
  now apply replace_same_value.
Qed.

Lemma client_after_twice (v : verb) (c : Client) :
  client_after v (client_after GET c) = client_after GET c.
Proof.
  destruct c as [o]. unfold client_after. simpl.
  destruct (access_token o) as [token|] eqn:Ht; simpl.
  - rewrite Ht. destruct v; [|reflexivity].
    unfold with_headers; simpl. now rewrite set_twice.
  - rewrite Ht. now destruct v.
Qed.

(** * Further properties of the executors *)

Section Executors.

Variable JSON_parse : string -> json + js_error.

(** X6.  For [_get], whose response is decoded as UTF-8 text, the way the
    body is cut into chunks makes no difference: two responses whose chunks
    concatenate to the same text, followed by the same events, leave the
    same world. *)
Theorem X6_get_outcome_depends_on_concatenated_body :
  forall (url : string) (params callback p : arg) (cb : func)
    (chunks1 chunks2 : list string) (evs : list event) (w : World),
    charAt0_is_slash url = true ->
    shift_arguments params callback = (p, AFunction cb) ->
    String.concat EmptyString chunks1 = String.concat EmptyString chunks2 ->
    after JSON_parse (_get url params callback) (map Data chunks1 ++ evs) w =
      after JSON_parse (_get url params callback) (map Data chunks2 ++ evs) w.
Proof.
  intros url params callback p cb chunks1 chunks2 evs w Hurl Hshift Hsame.
  change (_get url params callback) with (executor GET url params callback).
  unfold after. rewrite (executor_valid GET url params callback p cb w Hurl Hshift).
  rewrite !emit_all_issued_data, !accumulate_from. now rewrite Hsame.
Qed.

(** X7.  After one valid [_get] the client does not change any more: a
    further call of [_get] or [_post], valid or not, leaves the options as
    the first call left them, so the headers do not grow from call to
    call. *)
Theorem X7_client_is_stable_after_first_get :
  forall (v : verb) (url1 url2 : string) (params1 callback1 p1 params2 callback2 : arg)
    (cb1 : func) (w : World),
    charAt0_is_slash url1 = true ->
    shift_arguments params1 callback1 = (p1, AFunction cb1) ->
    this (snd (executor v url2 params2 callback2 (snd (_get url1 params1 callback1 w)))) =
      this (snd (_get url1 params1 callback1 w)).
Proof.
  intros v url1 url2 params1 callback1 p1 params2 callback2 cb1 w Hurl Hshift.
  change (_get url1 params1 callback1 w) with (executor GET url1 params1 callback1 w).
  rewrite (executor_valid GET url1 params1 callback1 p1 cb1 w Hurl Hshift).
  cbn [snd]. set (w1 := issued GET url1 p1 cb1 EmptyString w).
  destruct (is_function (snd (shift_arguments params2 callback2))) eqn:Hf.
  - destruct (charAt0_is_slash url2) eqn:Hurl2.
    + destruct (shift_arguments params2 callback2) as [p2 [| |cb2]] eqn:Hs; try discriminate.
      rewrite (executor_valid v url2 params2 callback2 p2 cb2 w1 Hurl2 Hs).
      cbn [snd this issued]. subst w1. cbn [this issued]. apply client_after_twice.
    + now rewrite (executor_invalid_url v url2 params2 callback2 w1 Hurl2 Hf).
  - now rewrite (executor_invalid_callback v url2 params2 callback2 w1 Hf).
Qed.

(** X17.  A call of [_post] and the whole response to it leave the client
    as it was, whatever the arguments and whatever the events. *)
Theorem X17_post_cycle_leaves_client :
  forall (url : string) (params callback : arg) (evs : list event) (w : World),
    this (after JSON_parse (_post url params callback) evs w) = this w.
Proof.
  intros url params callback evs w. unfold after.
  pose proof (_post_leaves_client url params callback w) as H.
  destruct (_post url params callback w) as [[r|e] w']; simpl in H.
  - now rewrite emit_all_leaves_client.
  - exact H.
Qed.

Lemma emit_leaves_other_listeners (i j : nat) (ev : event) (w : World) :
  i <> j ->
  nth_error (listeners (snd (emit JSON_parse i ev w))) j = nth_error (listeners w) j.
Proof.
  intros Hne. unfold emit.
  destruct (nth_error (listeners w) i) as [[[id b|d] data]|]; [| |reflexivity].
  - destruct ev as [chunk| |err].
    + simpl. now apply nth_error_update_nth_other.
    + now rewrite on_end_user.
    + unfold on_error. cbn [l_callback]. now rewrite invoke_user.
  - destruct ev as [chunk| |err].
    + simpl. now apply nth_error_update_nth_other.
    + now rewrite on_end_settle.
    + reflexivity.
Qed.

(** X12.  The events of one response do not reach the listeners of another:
    the text accumulated for request [j] and its callback are what they
    were, whatever is emitted on the response of a different request [i]. *)
Theorem X12_responses_do_not_mix :
  forall (i j : nat) (evs : list event) (w : World),
    i <> j ->
    nth_error (listeners (snd (emit_all JSON_parse i evs w))) j = nth_error (listeners w) j.
Proof.
  intros i j evs w Hne. revert w.
  induction evs as [|ev evs IH]; intros w; [reflexivity|].
  simpl. unfold bind.
  pose proof (emit_leaves_other_listeners i j ev w Hne) as H.
  destruct (emit JSON_parse i ev w) as [[[]|e] w1]; simpl in H.
  - now rewrite IH.
  - exact H.
Qed.

End Executors.

(** * Further properties of the requests *)

Lemma encodeURI_alphabet (s : string) : every_char uri_safe (encodeURI s) = true.
Proof.
  apply (escape_with_alphabet uri_unescaped s).
  intros c Hc. unfold uri_unescaped. now rewrite Hc.
Qed.

Lemma escape_alphabet (s : string) :
  every_char (fun c => Querystring.unescaped c || Ascii.eqb c "%") (Querystring.escape s) = true.
Proof.
  apply (escape_with_alphabet Querystring.unescaped s).
  intros c Hc. unfold Querystring.unescaped. now rewrite Hc.
Qed.

Lemma escape_uri_safe (s : string) : every_char uri_safe (Querystring.escape s) = true.
Proof.
  apply (every_char_weaken (fun c => Querystring.unescaped c || Ascii.eqb c "%") uri_safe);
    [|apply escape_alphabet].
  intros c H. unfold uri_safe. apply orb_true_iff in H. destruct H as [H|H].
  - now rewrite (unescaped_uri_unescaped c H).
  - rewrite H. now rewrite orb_true_r.
Qed.

Lemma escape_form_safe (s : string) : every_char form_safe (Querystring.escape s) = true.
Proof.
  apply (every_char_weaken (fun c => Querystring.unescaped c || Ascii.eqb c "%") form_safe);
    [|apply escape_alphabet].
  intros c H. unfold form_safe. apply orb_true_iff in H. destruct H as [H|H].
  - now rewrite H.
  - simpl. rewrite H. now rewrite orb_true_r.
Qed.

Lemma stringify_form_safe (o : obj string) :
  every_char form_safe (Querystring.stringify o) = true.
Proof.
  unfold Querystring.stringify.
  induction o as [|[k v] o IH]; [reflexivity|].
  assert (Hkv : every_char form_safe (Querystring.escape k ++ "=" ++ Querystring.escape v) = true).
  { rewrite !every_char_app, !escape_form_safe. reflexivity. }
  cbn [map String.concat fst snd].
  destruct (map _ o) as [|x xs] eqn:E; [exact Hkv|].
  rewrite every_char_app, Hkv. rewrite every_char_app. simpl in IH |- *. exact IH.
Qed.

(** X8.  The path of every request, GET or POST, is made of the characters
    [encodeURI] lets through and of percent signs only, whatever the url,
    the parameters and the app id hold: no blank, carriage return or line
    feed reaches the request line. *)
Theorem X8_request_path_is_uri_safe :
  forall (v : verb) (url : string) (params callback p : arg) (cb : func) (w : World),
    charAt0_is_slash url = true ->
    shift_arguments params callback = (p, AFunction cb) ->
    exists r,
      sent (snd (executor v url params callback w)) = (sent w ++ [r])%list /\
      every_char uri_safe (r_path r) = true /\
      str_mem " " (r_path r) = false /\
      str_mem "013" (r_path r) = false /\
      str_mem "010" (r_path r) = false.
Proof.
  intros v url params callback p cb w Hurl Hshift.
  rewrite (executor_valid v url params callback p cb w Hurl Hshift).
  exists (request_of v (options (this w)) url p). split; [reflexivity|].
  assert (H : every_char uri_safe (r_path (request_of v (options (this w)) url p)) = true).
  { destruct v; cbn [request_of r_path get_request post_request].
    - apply encodeURI_alphabet.
    - destruct (app_id (options (this w))) as [id|]; [|apply encodeURI_alphabet].
      rewrite !every_char_app, encodeURI_alphabet, escape_uri_safe. reflexivity. }
  split; [exact H|].
  split; [exact (every_char_excludes uri_safe " " _ eq_refl H)|].
  split; [exact (every_char_excludes uri_safe "013" _ eq_refl H)|].
  exact (every_char_excludes uri_safe "010" _ eq_refl H).
Qed.

(** X9.  The body [_post] writes is made of unreserved characters, percent
    signs, equals signs and ampersands only, whatever the parameters hold;
    without parameters it is empty. *)
Theorem X9_post_body_is_form_encoded :
  forall (url : string) (params callback p : arg) (cb : func) (w : World),
    charAt0_is_slash url = true ->
    shift_arguments params callback = (p, AFunction cb) ->
    exists r,
      sent (snd (_post url params callback w)) = (sent w ++ [r])%list /\
      every_char form_safe (r_body r) = true /\
      (enumerable p = [] -> r_body r = EmptyString).
Proof.
  intros url params callback p cb w Hurl Hshift.
  change (_post url params callback w) with (executor POST url params callback w).
  rewrite (executor_valid POST url params callback p cb w Hurl Hshift).
  exists (post_request (options (this w)) url p). split; [reflexivity|].
  cbn [r_body post_request]. split; [apply stringify_form_safe|].
  now intros ->.
Qed.

(** X10.  The path of a GET request is the encoded url, followed, when the
    query string is not empty, by a question mark and the encoded query
    string; a call without parameters by a client without app id asks for
    the encoded url and nothing more. *)
Theorem X10_get_path_is_url_then_query :
  forall (url : string) (params callback p : arg) (cb : func) (w : World),
    charAt0_is_slash url = true ->
    shift_arguments params callback = (p, AFunction cb) ->
    exists r,
      sent (snd (_get url params callback w)) = (sent w ++ [r])%list /\
      (let query := Querystring.stringify (get_params (options (this w)) p) in
       r_path r = encodeURI url ++
                  (if is_empty query then EmptyString else "?" ++ encodeURI query)) /\
      (app_id (options (this w)) = None -> enumerable p = [] -> r_path r = encodeURI url).
Proof.
  intros url params callback p cb w Hurl Hshift.
  change (_get url params callback w) with (executor GET url params callback w).
  rewrite (executor_valid GET url params callback p cb w Hurl Hshift).
  exists (get_request (options (this w)) url p). split; [reflexivity|].
  cbn [r_path get_request]. split.
  - cbv zeta. unfold encodeURI. rewrite escape_with_app.
    destruct (is_empty (Querystring.stringify (get_params (options (this w)) p))) eqn:E.
    + destruct (Querystring.stringify (get_params (options (this w)) p)); [reflexivity|].
      discriminate.
    + reflexivity.
  - intros Ha Hp. unfold get_params. rewrite Ha, Hp. simpl.
    now rewrite append_empty_r.
Qed.

(** A character [querystring] escapes is escaped again by [encodeURI]. *)
Lemma escaped_character_is_escaped_again (c : ascii) (s : string) :
  Querystring.unescaped c = false ->
  exists h l,
    Querystring.escape (String c s) =
      String "%" (String h (String l (Querystring.escape s))) /\
    encodeURI (Querystring.escape (String c s)) =
      "%25" ++ String h (String l (encodeURI (Querystring.escape s))).
Proof.
  intros Hc. unfold Querystring.escape, encodeURI. cbn [escape_with]. rewrite Hc.
  destruct (percent_shape c) as (h & l & -> & Hh & Hl).
  exists h, l. split; [reflexivity|].
  cbn [append escape_with].
  assert (Hu : forall x, is_alnum x = true -> uri_unescaped x = true).
  { intros x Hx. unfold uri_unescaped. now rewrite Hx. }
  rewrite (Hu h Hh), (Hu l Hl). reflexivity.
Qed.

(** X11.  A parameter travels escaped once in the body of a POST request and
    escaped twice in the path of a GET request: there the percent sign of
    every escape [querystring] made is itself escaped as [%25]. *)
Theorem X11_get_escapes_parameters_twice :
  forall (url k val : string) (cb : func) (w : World),
    charAt0_is_slash url = true ->
    app_id (options (this w)) = None ->
    (exists r,
       sent (snd (_post url (AObject [(k, val)]) (AFunction cb) w)) = (sent w ++ [r])%list /\
       r_body r = Querystring.escape k ++ "=" ++ Querystring.escape val) /\
    (exists r,
       sent (snd (_get url (AObject [(k, val)]) (AFunction cb) w)) = (sent w ++ [r])%list /\
       r_path r = encodeURI url ++ "?" ++ encodeURI (Querystring.escape k) ++ "=" ++
                  encodeURI (Querystring.escape val)) /\
    (forall c s, val = String c s -> Querystring.unescaped c = false ->
       exists h l,
         Querystring.escape val = String "%" (String h (String l (Querystring.escape s))) /\
         encodeURI (Querystring.escape val) =
           "%25" ++ String h (String l (encodeURI (Querystring.escape s)))).
Proof.
  intros url k val cb w Hurl Ha. split; [|split].
  - change (_post url (AObject [(k, val)]) (AFunction cb) w)
      with (executor POST url (AObject [(k, val)]) (AFunction cb) w).
    rewrite (executor_valid POST url (AObject [(k, val)]) (AFunction cb) (AObject [(k, val)]) cb w
               Hurl eq_refl).
    exists (post_request (options (this w)) url (AObject [(k, val)])). split; reflexivity.
  - change (_get url (AObject [(k, val)]) (AFunction cb) w)
      with (executor GET url (AObject [(k, val)]) (AFunction cb) w).
    rewrite (executor_valid GET url (AObject [(k, val)]) (AFunction cb) (AObject [(k, val)]) cb w
               Hurl eq_refl).
    exists (get_request (options (this w)) url (AObject [(k, val)])). split; [reflexivity|].
    cbn [r_path get_request]. unfold get_params. rewrite Ha.
    cbn [enumerable Querystring.stringify map String.concat fst snd].
    assert (Hne : is_empty (Querystring.escape k ++ "=" ++ Querystring.escape val) = false).
    { destruct (Querystring.escape k); reflexivity. }
    rewrite Hne. unfold encodeURI. rewrite !escape_with_app. reflexivity.
  - intros c s -> Hc. now apply escaped_character_is_escaped_again.
Qed.

(** X15.  Three ways of calling an executor without parameters are one:
    with the callback in the place of the parameters (whatever follows it),
    with [undefined] parameters, and with an empty parameters object. *)
Theorem X15_calls_without_parameters_agree :
  forall (v : verb) (url : string) (f : func) (third : arg) (w : World),
    executor v url (AFunction f) third w = executor v url (AObject []) (AFunction f) w /\
    executor v url AUndefined (AFunction f) w = executor v url (AObject []) (AFunction f) w.
Proof.
  intros v url f third w. split.
  - destruct v; reflexivity.
  - destruct (charAt0_is_slash url) eqn:Hurl.
    + rewrite (executor_valid v url AUndefined (AFunction f) AUndefined f w Hurl eq_refl).
      rewrite (executor_valid v url (AObject []) (AFunction f) (AObject []) f w Hurl eq_refl).
      destruct v; reflexivity.
    + now rewrite !executor_invalid_url.
Qed.

(** * Further properties of the methods *)

Lemma shift_arguments_function (params : arg) (f : func) :
  exists p cb, shift_arguments params (AFunction f) = (p, AFunction cb).
Proof. unfold shift_arguments. destruct params; simpl; eauto. Qed.

Lemma request_of_method (v : verb) (o : Options) (url : string) (p : arg) :
  r_method (request_of v o url p) = verb_name v /\ r_ended (request_of v o url p) = true.
Proof. destruct v; split; reflexivity. Qed.

Lemma request_of_path_prefix (v : verb) (o : Options) (url : string) (p : arg) :
  String.prefix (encodeURI url) (r_path (request_of v o url p)) = true.
Proof.
  destruct v; cbn [request_of r_path get_request post_request].
  - unfold encodeURI. rewrite escape_with_app. apply prefix_append.
  - destruct (app_id o); [apply prefix_append|].
    rewrite <- (append_empty_r (encodeURI url)) at 2. apply prefix_append.
Qed.

(** A wrapper called with a path that starts with a slash returns and makes
    one request, whatever else it is given. *)
Lemma public_request (v : verb) (url : string) (params callback : arg) (w : World) :
  charAt0_is_slash url = true ->
  exists ret r,
    fst (public v url params callback w) = Normal ret /\
    sent (snd (public v url params callback w)) = (sent w ++ [r])%list /\
    r_method r = verb_name v /\
    r_ended r = true /\
    String.prefix (encodeURI url) (r_path r) = true.
Proof.
  intros Hurl.
  destruct (is_function callback) eqn:Hc.
  - destruct callback as [| |f]; try discriminate.
    destruct (shift_arguments_function params f) as (p & cb & Hs).
    rewrite public_callback. unfold bind.
    rewrite (executor_valid v url params (AFunction f) p cb w Hurl Hs).
    exists RUndefined, (request_of v (options (this w)) url p).
    split; [reflexivity|]. split; [reflexivity|].
    split; [apply request_of_method|]. split; [apply request_of_method|].
    apply request_of_path_prefix.
  - destruct (shift_arguments_function params (Settle (List.length (deferreds w))))
      as (p & cb & Hs).
    rewrite (public_deferred_valid v url params callback p cb w Hurl Hc Hs).
    exists (RDeferred (List.length (deferreds w))), (request_of v (options (this w)) url p).
    split; [reflexivity|]. split; [reflexivity|].
    split; [apply request_of_method|]. split; [apply request_of_method|].
    apply request_of_path_prefix.
Qed.

(** An endpoint method called on text that [encodeURI] and [querystring]
    encode, with a transport that takes the request. *)
Lemma call_makes_request :
  forall (e : endpoint) (params callback : arg) (w : World),
    exists ret r,
      fst (call e params callback w) = Normal ret /\
      sent (snd (call e params callback w)) = (sent w ++ [r])%list /\
      r_method r = verb_name (endpoint_verb e) /\
      r_ended r = true /\
      String.prefix (encodeURI (endpoint_url e)) (r_path r) = true.
Proof.
  intros e params callback w.
  destruct e as [|name|id|id|name|keywords|id|name| |id|id status|id].
  - destruct (public_request GET "/calendar" callback AUndefined w eq_refl)
      as (ret & r & Hret & Hsent & Hrest).
    exists RThis, r. cbn [call endpoint_verb endpoint_url]. unfold calendar, bind.
    change (get "/calendar" callback AUndefined w)
      with (public GET "/calendar" callback AUndefined w).
    destruct (public GET "/calendar" callback AUndefined w) as [[r0|x] w'];
      simpl in Hret, Hsent |- *; [|discriminate].
    split; [reflexivity|]. split; [exact Hsent | exact Hrest].
  - exact (public_request GET (endpoint_url (User name)) callback AUndefined w eq_refl).
  - exact (public_request GET (endpoint_url (Subject id)) params callback w eq_refl).
  - exact (public_request GET (endpoint_url (Ep id)) callback AUndefined w eq_refl).
  - exact (public_request GET (endpoint_url (CollectionByUser name)) params callback w eq_refl).
  - exact (public_request GET (endpoint_url (Search keywords)) params callback w eq_refl).
  - exact (public_request GET (endpoint_url (CollectionBySubject id)) params callback w eq_refl).
  - exact (public_request GET (endpoint_url (Progress name)) params callback w eq_refl).
  - exact (public_request POST (endpoint_url Auth) params callback w eq_refl).
  - exact (public_request POST (endpoint_url (CreateCollection id)) params callback w eq_refl).
  - exact (public_request POST (endpoint_url (UpdateEp id status)) params callback w eq_refl).
  - exact (public_request POST (endpoint_url (UpdateEps id)) params callback w eq_refl).
Qed.

(** X14.  No endpoint method throws an invalid-argument failure, whatever
    it is given as parameters and callback and whatever its identifiers
    hold: the path it builds starts with a slash and the executor is handed
    a function.  It makes one request at most, and a request it makes is
    ended, is a GET for [calendar], [user], [subject], [ep],
    [collectionByUser], [search], [collectionBySubject] and [progress] and a
    POST for [auth], [createCollection], [updateEp] and [updateEps], and has
    a path that starts with the encoded path of the endpoint. *)
Theorem X14_endpoint_methods_request_their_endpoint :
  forall (e : endpoint) (params callback : arg) (w : World),
    (forall x, fst (call e params callback w) = Throw x -> ~ invalid_argument x) /\
    exists news,
      sent (snd (call e params callback w)) = (sent w ++ news)%list /\
      List.length news <= 1 /\
      Forall (fun r =>
                r_method r = verb_name (endpoint_verb e) /\
                r_ended r = true /\
                String.prefix (encodeURI (endpoint_url e)) (r_path r) = true) news.
Proof.
  intros e params callback w.
  destruct (call_makes_request e params callback w) as (ret & r & Hret & Hsent & Hr).
  split.
  - intros x Hx. rewrite Hret in Hx. discriminate.
  - exists [r]. split; [exact Hsent|]. split; [simpl; lia|].
    constructor; [exact Hr | constructor].
Qed.

(** X13.  The promise provider holds [null] or a function.  Setting a
    function whose text the message can be built from succeeds, and [get]
    returns that function.  Setting anything else whose text can be built
    fails the assertion, with a message that ends in that text.  Setting a
    value whose conversion to a string throws, function or not, throws that
    exception before the assertion is made.  Either failure leaves the
    provider as it was.  Whatever the calls after the module was loaded,
    successful or failed, [get] never returns a value that is not a
    function, and it returns the last value that was stored. *)
Theorem X13_promise_provider_holds_functions_only :
  (forall id text s,
     setPromiseProvider (PromiseProvider.LFunction id (PromiseProvider.Renders text)) s =
       (PromiseProvider.Done,
        {| PromiseProvider._promise :=
             Some (PromiseProvider.LFunction id (PromiseProvider.Renders text)) |}) /\
     PromiseProvider.get
       (snd (setPromiseProvider
               (PromiseProvider.LFunction id (PromiseProvider.Renders text)) s)) =
       Some (PromiseProvider.LFunction id (PromiseProvider.Renders text))) /\
  (forall text s,
     setPromiseProvider (PromiseProvider.LOther (PromiseProvider.Renders text)) s =
       (PromiseProvider.AssertionError ("bangumi.Promise must be a function, got " ++ text),
        s)) /\
  (forall l e s,
     PromiseProvider.shown l = PromiseProvider.Throws e ->
     setPromiseProvider l s = (PromiseProvider.Thrown e, s)) /\
  (forall global_Promise ls,
     match PromiseProvider.get
             (PromiseProvider.set_each ls (snd (PromiseProvider.load global_Promise))) with
     | Some l => PromiseProvider.is_function l = true
     | None => True
     end) /\
  (forall ls l rest s,
     PromiseProvider.accepted l = true ->
     forallb (fun l' => negb (PromiseProvider.accepted l')) rest = true ->
     PromiseProvider.get (PromiseProvider.set_each (ls ++ l :: rest) s) = Some l).
Proof.
  assert (Hset : forall l s,
            snd (PromiseProvider.set l s) =
              if PromiseProvider.accepted l then {| PromiseProvider._promise := Some l |}
              else s).
  { intros l s. unfold PromiseProvider.set, PromiseProvider.accepted.
    destruct (PromiseProvider.shown l); [|reflexivity].
    now destruct (PromiseProvider.is_function l). }
  assert (Hacc : forall l, PromiseProvider.accepted l = true ->
                           PromiseProvider.is_function l = true).
  { intros l. unfold PromiseProvider.accepted.
    destruct (PromiseProvider.shown l); [auto | discriminate]. }
  split; [|split; [|split; [|split]]].
  - intros id text s. split; reflexivity.
  - intros text s. reflexivity.
  - intros l e s Hl. unfold setPromiseProvider, PromiseProvider.set. now rewrite Hl.
  - intros g ls.
    assert (Hinv : forall s,
              match PromiseProvider.get s with
              | Some l => PromiseProvider.is_function l = true
              | None => True
              end ->
              match PromiseProvider.get (PromiseProvider.set_each ls s) with
              | Some l => PromiseProvider.is_function l = true
              | None => True
              end).
    { induction ls as [|l ls IH]; intros s Hs; [exact Hs|].
      unfold PromiseProvider.set_each. cbn [fold_left]. apply IH.
      rewrite Hset. destruct (PromiseProvider.accepted l) eqn:E; [|exact Hs].
      simpl. now apply Hacc. }
    apply Hinv. destruct g as [l|]; [|exact I].
    unfold PromiseProvider.load. rewrite Hset.
    destruct (PromiseProvider.accepted l) eqn:E; [|exact I].
    simpl. now apply Hacc.
  - intros ls l rest s Hl Hrest. unfold PromiseProvider.set_each.
    rewrite fold_left_app. cbn [fold_left]. rewrite Hset, Hl.
    assert (H : forall s1, PromiseProvider.get s1 = Some l ->
              PromiseProvider.get
                (fold_left (fun acc l' => snd (PromiseProvider.set l' acc)) rest s1) =
                Some l).
    { induction rest as [|l' rest IH]; intros s1 Hs1; [exact Hs1|].
      simpl in Hrest. apply andb_true_iff in Hrest. destruct Hrest as [Hl' Hrest].
      cbn [fold_left]. apply (IH Hrest). rewrite Hset.
      destruct (PromiseProvider.accepted l'); [discriminate | exact Hs1]. }
    apply H. reflexivity.
Qed.


(** ** The further properties at concrete inputs *)

Lemma X1_two_chunks_of_an_object :
  charAt0_is_slash "/calendar" = true /\
  after JSON_parse_sample (executor GET "/calendar" AUndefined (AFunction quiet))
    (map Data ["{"; "}"]) (boot (Bangumi no_options)) =
    issued GET "/calendar" AUndefined quiet "{}" (boot (Bangumi no_options)) /\
  calls (after JSON_parse_sample (executor GET "/calendar" AUndefined (AFunction quiet))
           (map Data ["{"; "}"]) (boot (Bangumi no_options))) = [] /\
  deferreds (after JSON_parse_sample (executor GET "/calendar" AUndefined (AFunction quiet))
               (map Data ["{"; "}"]) (boot (Bangumi no_options))) = [].
Proof.
  refine (conj eq_refl _).
  exact (X1_data_events_only_accumulate JSON_parse_sample GET "/calendar" AUndefined
           (AFunction quiet) AUndefined quiet ["{"; "}"] (boot (Bangumi no_options))
           eq_refl eq_refl).
Defined.

Lemma X2_end_followed_by_error :
  charAt0_is_slash "/calendar" = true /\
  List.length
    (calls (after JSON_parse_sample (executor GET "/calendar" AUndefined (AFunction quiet))
              [Data "{}"; End; Error (SocketError "read ECONNRESET")]
              (boot (Bangumi no_options)))) = 2.
Proof.
  refine (conj eq_refl _).
  exact (X2_returning_callback_called_once_per_closing_event JSON_parse_sample GET
           "/calendar" AUndefined (AFunction quiet) AUndefined 0 (fun _ _ _ => None)
           [Data "{}"; End; Error (SocketError "read ECONNRESET")]
           (boot (Bangumi no_options)) eq_refl eq_refl (fun _ _ _ => eq_refl)).
Defined.

Lemma X3_calls_to_a_throwing_callback :
  charAt0_is_slash "/auth" = true /\
  Forall (fun a => is_null (fst a) = true \/ snd a = empty_object)
    (received_since 0
       (after JSON_parse_sample (executor POST "/auth" AUndefined (AFunction throws_once))
          [Data "{}"; End; End] (boot (Bangumi no_options)))).
Proof.
  refine (conj eq_refl _).
  exact (X3_error_comes_with_empty_result JSON_parse_sample POST "/auth" AUndefined
           (AFunction throws_once) AUndefined 0 _ [Data "{}"; End; End]
           (boot (Bangumi no_options)) eq_refl eq_refl).
Defined.

Lemma X4_array_body :
  charAt0_is_slash "/calendar" = true /\
  exists e r rest,
    received_since 0
      (after JSON_parse_sample (executor GET "/calendar" AUndefined (AFunction quiet))
         (map Data ["["; "]"] ++ [End]) (boot (Bangumi no_options))) = (e, r) :: rest /\
    (is_null e = true <->
     exists j, JSON_parse_sample (accumulate ["["; "]"]) = inl j /\
               has_own_error j = Normal false /\ r = JV j).
Proof.
  refine (conj eq_refl _).
  exact (X4_success_exactly_for_tested_payloads JSON_parse_sample GET "/calendar"
           AUndefined (AFunction quiet) AUndefined 0 (fun _ _ _ => None) ["["; "]"]
           (boot (Bangumi no_options)) eq_refl eq_refl).
Defined.

Lemma X5_payload_with_member_hasOwnProperty :
  charAt0_is_slash "/calendar" = true /\
  JSON_parse_shadowing (accumulate [shadowing_body]) =
    inl (JObj [("hasOwnProperty", JBool true)]) /\
  calls (after JSON_parse_shadowing (executor GET "/calendar" AUndefined (AFunction quiet))
           (map Data [shadowing_body] ++ [End]) (boot (Bangumi no_options))) =
    [(0, JErr (TypeError "json.hasOwnProperty is not a function"), empty_object)].
Proof.
  refine (conj eq_refl (conj eq_refl _)).
  exact (shadowed_test_is_delivered_as_error JSON_parse_shadowing GET "/calendar"
           AUndefined (AFunction quiet) AUndefined 0 (fun _ _ _ => None) [shadowing_body]
           [("hasOwnProperty", JBool true)] (boot (Bangumi no_options))
           eq_refl eq_refl eq_refl eq_refl).
Defined.

Lemma X6_null_in_one_chunk_or_two :
  charAt0_is_slash "/calendar" = true /\
  String.concat EmptyString ["nu"; "ll"] = String.concat EmptyString ["null"] /\
  after JSON_parse_sample (_get "/calendar" AUndefined (AFunction quiet))
    (map Data ["nu"; "ll"] ++ [End]) (boot (Bangumi no_options)) =
  after JSON_parse_sample (_get "/calendar" AUndefined (AFunction quiet))
    (map Data ["null"] ++ [End]) (boot (Bangumi no_options)).
Proof.
  refine (conj eq_refl (conj eq_refl _)).
  exact (X6_get_outcome_depends_on_concatenated_body JSON_parse_sample "/calendar"
           AUndefined (AFunction quiet) AUndefined quiet ["nu"; "ll"] ["null"] [End]
           (boot (Bangumi no_options)) eq_refl eq_refl eq_refl).
Defined.

Lemma X7_two_calls_with_token :
  charAt0_is_slash "/calendar" = true /\
  this (snd (executor GET "/user/1" AUndefined (AFunction quiet)
               (snd (_get "/calendar" AUndefined (AFunction quiet)
                       (boot (Bangumi (with_token "tok"))))))) =
    this (snd (_get "/calendar" AUndefined (AFunction quiet)
                 (boot (Bangumi (with_token "tok"))))).
Proof.
  refine (conj eq_refl _).
  exact (X7_client_is_stable_after_first_get GET "/calendar" "/user/1" AUndefined
           (AFunction quiet) AUndefined AUndefined (AFunction quiet) quiet
           (boot (Bangumi (with_token "tok"))) eq_refl eq_refl).
Defined.

Lemma X8_keywords_with_blank_and_line_feed :
  charAt0_is_slash ("/search/subject/" ++ String "010" "a b") = true /\
  exists r,
    sent (snd (executor GET ("/search/subject/" ++ String "010" "a b") AUndefined
                 (AFunction quiet) (boot (Bangumi no_options)))) = [r] /\
    every_char uri_safe (r_path r) = true /\
    str_mem " " (r_path r) = false /\
    str_mem "013" (r_path r) = false /\
    str_mem "010" (r_path r) = false.
Proof.
  refine (conj eq_refl _).
  exact (X8_request_path_is_uri_safe GET ("/search/subject/" ++ String "010" "a b")
           AUndefined (AFunction quiet) AUndefined quiet (boot (Bangumi no_options))
           eq_refl eq_refl).
Defined.

Lemma X9_comment_with_ampersand :
  charAt0_is_slash "/collection/1/create" = true /\
  exists r,
    sent (snd (_post "/collection/1/create" (AObject [("comment", "a&b=c d")])
                 (AFunction quiet) (boot (Bangumi no_options)))) = [r] /\
    every_char form_safe (r_body r) = true /\
    (enumerable (AObject [("comment", "a&b=c d")]) = [] -> r_body r = EmptyString).
Proof.
  refine (conj eq_refl _).
  exact (X9_post_body_is_form_encoded "/collection/1/create"
           (AObject [("comment", "a&b=c d")]) (AFunction quiet)
           (AObject [("comment", "a&b=c d")]) quiet (boot (Bangumi no_options))
           eq_refl eq_refl).
Defined.

Lemma X10_calendar_without_parameters :
  charAt0_is_slash "/calendar" = true /\
  app_id (options (this (boot (Bangumi no_options)))) = None /\
  exists r,
    sent (snd (_get "/calendar" AUndefined (AFunction quiet) (boot (Bangumi no_options)))) =
      [r] /\
    r_path r = "/calendar".
Proof.
  refine (conj eq_refl (conj eq_refl _)).
  destruct (X10_get_path_is_url_then_query "/calendar" AUndefined (AFunction quiet)
              AUndefined quiet (boot (Bangumi no_options)) eq_refl eq_refl)
    as (r & Hsent & _ & Hpath).
  exists r. exact (conj Hsent (Hpath eq_refl eq_refl)).
Defined.

Lemma X11_keyword_with_blank :
  charAt0_is_slash "/search/subject/x" = true /\
  app_id (options (this (boot (Bangumi no_options)))) = None /\
  (exists r,
     sent (snd (_post "/search/subject/x" (AObject [("q", " b")]) (AFunction quiet)
                  (boot (Bangumi no_options)))) = [r] /\
     r_body r = "q=%20b") /\
  (exists r,
     sent (snd (_get "/search/subject/x" (AObject [("q", " b")]) (AFunction quiet)
                  (boot (Bangumi no_options)))) = [r] /\
     r_path r = "/search/subject/x?q=%2520b").
Proof.
  refine (conj eq_refl (conj eq_refl _)).
  pose (H := X11_get_escapes_parameters_twice "/search/subject/x" "q" " b" quiet
               (boot (Bangumi no_options)) eq_refl eq_refl).
  exact (conj (proj1 H) (proj1 (proj2 H))).
Defined.

Lemma X12_two_calls_one_response :
  0 <> 1 /\
  nth_error
    (listeners
       (snd (emit_all JSON_parse_sample 0 [Data "{}"; End]
               (snd (_get "/user/1" AUndefined (AFunction quiet)
                       (snd (_get "/calendar" AUndefined (AFunction quiet)
                               (boot (Bangumi no_options))))))))) 1 =
    Some {| l_callback := quiet; l_data := EmptyString |}.
Proof.
  refine (conj (fun H : 0 = 1 => O_S 0 H) _).
  exact (X12_responses_do_not_mix JSON_parse_sample 0 1 [Data "{}"; End]
           (snd (_get "/user/1" AUndefined (AFunction quiet)
                   (snd (_get "/calendar" AUndefined (AFunction quiet)
                           (boot (Bangumi no_options))))))
           (fun H : 0 = 1 => O_S 0 H)).
Defined.

Lemma X16_calendar_with_callback_second :
  charAt0_is_slash "/calendar" = true /\
  fst (public GET "/calendar" (AFunction quiet) AUndefined (boot (Bangumi no_options))) =
    Normal (RDeferred 0) /\
  nth_error
    (deferreds (after JSON_parse_sample (public GET "/calendar" (AFunction quiet) AUndefined)
                  [Data "{}"; End] (boot (Bangumi no_options)))) 0 = Some Pending.
Proof.
  refine (conj eq_refl _).
  exact (callback_as_second_argument_leaves_deferred_pending JSON_parse_sample GET
           "/calendar" 0 (fun _ _ _ => None) [Data "{}"; End] (boot (Bangumi no_options))
           eq_refl).
Defined.

Lemma X13_symbol_then_function_then_number :
  PromiseProvider.shown
    (PromiseProvider.LOther
       (PromiseProvider.Throws (JErr (TypeError "Cannot convert a Symbol value to a string")))) =
    PromiseProvider.Throws (JErr (TypeError "Cannot convert a Symbol value to a string")) /\
  setPromiseProvider
    (PromiseProvider.LOther
       (PromiseProvider.Throws (JErr (TypeError "Cannot convert a Symbol value to a string"))))
    PromiseProvider.empty =
    (PromiseProvider.Thrown (JErr (TypeError "Cannot convert a Symbol value to a string")),
     PromiseProvider.empty) /\
  PromiseProvider.get
    (PromiseProvider.set_each
       ([PromiseProvider.LOther
           (PromiseProvider.Throws
              (JErr (TypeError "Cannot convert a Symbol value to a string")))] ++
        PromiseProvider.LFunction 1 (PromiseProvider.Renders "function Promise() {}") ::
        [PromiseProvider.LOther (PromiseProvider.Renders "42")])
       PromiseProvider.empty) =
    Some (PromiseProvider.LFunction 1 (PromiseProvider.Renders "function Promise() {}")).
Proof.
  refine (conj eq_refl _).
  pose (H := X13_promise_provider_holds_functions_only).
  exact (conj
           (proj1 (proj2 (proj2 H))
              (PromiseProvider.LOther
                 (PromiseProvider.Throws
                    (JErr (TypeError "Cannot convert a Symbol value to a string"))))
              (JErr (TypeError "Cannot convert a Symbol value to a string"))
              PromiseProvider.empty eq_refl)
           (proj2 (proj2 (proj2 (proj2 H)))
              [PromiseProvider.LOther
                 (PromiseProvider.Throws
                    (JErr (TypeError "Cannot convert a Symbol value to a string")))]
              (PromiseProvider.LFunction 1 (PromiseProvider.Renders "function Promise() {}"))
              [PromiseProvider.LOther (PromiseProvider.Renders "42")]
              PromiseProvider.empty eq_refl eq_refl)).
Defined.
